(** * Route simulation: the tick engine of [main.cpp]

    A shallow embedding of [Simulation::tick] and of the data it works on.
    [Amount] is the C++ [double], taken here as the kernel's binary64
    floats, so every sum, difference, product and comparison below is the
    IEEE operation the program performs.  [Ticks] and the tick counter are
    [uint64_t]; the only arithmetic on a countdown is a decrement guarded
    by [ticks > 0], so they are taken as [N].  Pointers into [m_chains]
    are indices into the list of chains, [nullptr] being [None].  What the
    program writes to [std::cout] is kept as a list of [Event]s, one
    constructor per message. *)

From Stdlib Require Import Floats NArith ZArith Lia String.
From stdpp Require Import base option list.

Set Warnings "-inexact-float".

(** * The program *)

(** ** Data model *)

Abbreviation Amount := float.
Abbreviation Ticks := N.

Record ChainParams := mkChainParams {
  orderflowRegenPerTick : Amount;
  outflowRegenPerTick : Amount;
  gasCost : Amount;
  executionSurplus : Amount;
  bridgingTime : Ticks;
  inventoryLockTime : Ticks
}.

Abbreviation LockedAmounts := (list (Amount * Ticks)).

Record Chain := mkChain {
  chainName : string;
  currentOrderflowBal : Amount;
  currentOutflowBal : Amount;
  currentStrategyBal : Amount;
  maxOrderflowBal : Amount;
  maxOutflowBal : Amount;
  maxStrategyBal : Amount;
  params : ChainParams;
  balance : Amount;
  lockedBalances : LockedAmounts
}.

(** The constructor of [Chain]: members are initialised in declaration
    order, so the three maxima read the balances set just before them. *)
Definition Chain_new (name : string) (rp : ChainParams)
    (initialOrderflowBal initialOutflowBal startingStrategyBal : Amount) : Chain :=
  {| chainName := name;
     currentOrderflowBal := initialOrderflowBal;
     currentOutflowBal := initialOutflowBal;
     currentStrategyBal := startingStrategyBal;
     maxOrderflowBal := (initialOrderflowBal * 1.5)%float;
     maxOutflowBal := (initialOutflowBal * 1.5)%float;
     maxStrategyBal := (startingStrategyBal * 1.5)%float;
     params := rp;
     balance := startingStrategyBal;
     lockedBalances := [] |}.

Abbreviation Chains := (list Chain).

Inductive ActionType := bridge | execute.

Record Action := mkAction {
  type : ActionType;
  source : string;
  destination : string;
  amount : Amount
}.

Abbreviation Actions := (list Action).

(** Assignment to one mutable member of a [Chain]. *)
Definition set_currentOrderflowBal (v : Amount) (c : Chain) : Chain :=
  mkChain (chainName c) v (currentOutflowBal c) (currentStrategyBal c)
    (maxOrderflowBal c) (maxOutflowBal c) (maxStrategyBal c) (params c)
    (balance c) (lockedBalances c).

Definition set_currentOutflowBal (v : Amount) (c : Chain) : Chain :=
  mkChain (chainName c) (currentOrderflowBal c) v (currentStrategyBal c)
    (maxOrderflowBal c) (maxOutflowBal c) (maxStrategyBal c) (params c)
    (balance c) (lockedBalances c).

Definition set_balance (v : Amount) (c : Chain) : Chain :=
  mkChain (chainName c) (currentOrderflowBal c) (currentOutflowBal c)
    (currentStrategyBal c) (maxOrderflowBal c) (maxOutflowBal c)
    (maxStrategyBal c) (params c) v (lockedBalances c).

Definition set_lockedBalances (l : LockedAmounts) (c : Chain) : Chain :=
  mkChain (chainName c) (currentOrderflowBal c) (currentOutflowBal c)
    (currentStrategyBal c) (maxOrderflowBal c) (maxOutflowBal c)
    (maxStrategyBal c) (params c) (balance c) l.

(** ** Output *)

(** One constructor per line the program prints. *)
Inductive Event :=
| TickBanner (tickCounter : N)
| AmountNowAvailable (tickCounter : N) (amount : Amount) (chain : string)
| FailedSameChains (tickCounter : N)
| FailedToFindChain (tickCounter : N)
| InsufficientFunds (tickCounter : N)
| InsufficientBridgeDestination (tickCounter : N)
| InsufficientBridgeGas (tickCounter : N)
| InsufficientExecuteDestination (tickCounter : N)
| InsufficientExecuteGas (tickCounter : N)
| Bridged (tickCounter : N) (src dst : string) (bridgedAmount : Amount) (ticks : Ticks)
| Executed (tickCounter : N) (src dst : string) (creditedAmount : Amount) (ticks : Ticks)
| ChainReport (chain : string) (bal lockedTotal : Amount)
| TotalReport (total : Amount)
| StartingSimulation
| Finished.

(** ** The strategy interface and the simulation object *)

(** [IStrategy::onTickRecalc] receives the chains by const reference and
    an empty [Actions] to fill; the object may keep members of its own,
    which is the state [St] threaded here. *)
Class IStrategy (St : Type) := {
  onTickRecalc : St -> Chains -> St * Actions
}.

(** The members of [Simulation]: the strategy object and the chains. *)
Record Simulation (St : Type) := mkSimulation {
  m_strategy : St;
  m_chains : Chains
}.
Arguments mkSimulation {St} _ _.
Arguments m_strategy {St} _.
Arguments m_chains {St} _.

(** ** Regeneration and release: the first loop of [tick] *)

(** [std::min(a, b)]: [b] when [b < a], otherwise [a]. *)
Definition fmin (a b : Amount) : Amount :=
  if (b <? a)%float then b else a.

(** The [remove_if] pass over [lockedBalances]: the predicate visits the
    entries in order, decrements a positive countdown in place, and on a
    zero countdown adds the amount to the chain's [balance], prints, and
    marks the entry for removal.  Returns the balance, the entries kept and
    the lines printed. *)
Fixpoint releaseLocked (tickCounter : N) (name : string)
    (pending : LockedAmounts) (bal : Amount)
  : Amount * LockedAmounts * list Event :=
  match pending with
  | [] => (bal, [], [])
  | (b, ticks) :: rest =>
      let ticks := if (0 <? ticks)%N then N.pred ticks else ticks in
      if (ticks =? 0)%N then
        let '(bal', kept, out) :=
          releaseLocked tickCounter name rest (bal + b)%float in
        (bal', kept, AmountNowAvailable tickCounter b name :: out)
      else
        let '(bal', kept, out) := releaseLocked tickCounter name rest bal in
        (bal', (b, ticks) :: kept, out)
  end.

(** The body of the first loop for one chain. *)
Definition tickChain (tickCounter : N) (chain : Chain) : Chain * list Event :=
  let chain := set_currentOrderflowBal
    (fmin (currentOrderflowBal chain + orderflowRegenPerTick (params chain))%float
          (maxOrderflowBal chain)) chain in
  let chain := set_currentOutflowBal
    (fmin (currentOutflowBal chain + outflowRegenPerTick (params chain))%float
          (maxOutflowBal chain)) chain in
  let '(bal, kept, out) :=
    releaseLocked tickCounter (chainName chain) (lockedBalances chain)
      (balance chain) in
  (set_lockedBalances kept (set_balance bal chain), out).

Fixpoint tickChains (tickCounter : N) (chains : Chains) : Chains * list Event :=
  match chains with
  | [] => ([], [])
  | chain :: rest =>
      let '(chain', out) := tickChain tickCounter chain in
      let '(rest', out') := tickChains tickCounter rest in
      (chain' :: rest', out ++ out')
  end.

(** ** Executing the actions: the second loop of [tick] *)

(** The lookup loop: every chain is visited; a chain named like the source
    sets [pSource], otherwise one named like the destination sets
    [pDestination]; a later match overwrites an earlier one. *)
Fixpoint findChains (chains : Chains) (i : nat) (src dst : string)
    (pSource pDestination : option nat) : option nat * option nat :=
  match chains with
  | [] => (pSource, pDestination)
  | chain :: rest =>
      if String.eqb (chainName chain) src then
        findChains rest (S i) src dst (Some i) pDestination
      else if String.eqb (chainName chain) dst then
        findChains rest (S i) src dst pSource (Some i)
      else findChains rest (S i) src dst pSource pDestination
  end.

Definition push_back (e : Amount * Ticks) (c : Chain) : Chain :=
  set_lockedBalances (lockedBalances c ++ [e]) c.

(** One iteration of the second loop.  Every [continue] returns the chains
    as they are with the line printed.  A pointer the lookup loop has set is
    the index of a chain of the vector, so reading through it never fails
    ([findChains_resolved]); the branch for a failed read is there for
    totality only.  The writes go through the pointers one statement after
    the other, as in the program. *)
Definition execAction (tickCounter : N) (chains : Chains) (action : Action)
  : Chains * list Event :=
  if String.eqb (source action) (destination action) then
    (chains, [FailedSameChains tickCounter])
  else
    match findChains chains 0 (source action) (destination action) None None with
    | (Some pSource, Some pDestination) =>
        match chains !! pSource, chains !! pDestination with
        | Some src, Some dst =>
            if (balance src <? amount action)%float then
              (chains, [InsufficientFunds tickCounter])
            else
              match type action with
              | bridge =>
                  if (currentOutflowBal dst <? amount action)%float then
                    (chains, [InsufficientBridgeDestination tickCounter])
                  else if (amount action <? gasCost (params src))%float then
                    (chains, [InsufficientBridgeGas tickCounter])
                  else
                    let bridgedAmount :=
                      (amount action - gasCost (params src))%float in
                    let chains := alter (fun c => set_currentOutflowBal
                      (currentOutflowBal c - amount action)%float c)
                      pDestination chains in
                    let chains := alter (fun c => set_currentOutflowBal
                      (currentOutflowBal c + amount action)%float c)
                      pSource chains in
                    let chains := alter (fun c => set_balance
                      (balance c - amount action)%float c) pSource chains in
                    let chains := alter
                      (push_back (bridgedAmount, bridgingTime (params src)))
                      pDestination chains in
                    (chains,
                     [Bridged tickCounter (chainName src) (chainName dst)
                        bridgedAmount (bridgingTime (params src))])
              | execute =>
                  if (currentOrderflowBal dst <? amount action)%float then
                    (chains, [InsufficientExecuteDestination tickCounter])
                  else if (amount action <? gasCost (params src))%float then
                    (chains, [InsufficientExecuteGas tickCounter])
                  else
                    let amountAfterGasCost :=
                      (amount action - gasCost (params src))%float in
                    let creditedAmount :=
                      (amountAfterGasCost * executionSurplus (params src))%float in
                    let chains := alter (fun c => set_currentOrderflowBal
                      (currentOrderflowBal c - amount action)%float c)
                      pDestination chains in
                    let chains := alter (fun c => set_balance
                      (balance c - amount action)%float c) pSource chains in
                    let chains := alter
                      (push_back (creditedAmount, inventoryLockTime (params src)))
                      pDestination chains in
                    (chains,
                     [Executed tickCounter (chainName src) (chainName dst)
                        creditedAmount (inventoryLockTime (params src))])
              end
        | _, _ => (chains, [])
        end
    | _ => (chains, [FailedToFindChain tickCounter])
    end.

(** The second loop: actions are taken in order, each on the chains as the
    previous one left them. *)
Fixpoint execActions (tickCounter : N) (chains : Chains) (actions : Actions)
  : Chains * list Event :=
  match actions with
  | [] => (chains, [])
  | action :: rest =>
      let '(chains', out) := execAction tickCounter chains action in
      let '(chains'', out') := execActions tickCounter chains' rest in
      (chains'', out ++ out')
  end.

(** ** [tick], [reportState] and [simulate] *)

Section Engine.
Context {St : Type} `{IStrategy St}.

Definition tick (tickCounter : N) (sim : Simulation St)
  : Simulation St * list Event :=
  let banner :=
    if (tickCounter mod 100 =? 0)%N then [TickBanner tickCounter] else [] in
  let '(chains, released) := tickChains tickCounter (m_chains sim) in
  let '(st, actions) := onTickRecalc (m_strategy sim) chains in
  let '(chains', out) := execActions tickCounter chains actions in
  (mkSimulation st chains', banner ++ released ++ out).

(** The loop of [simulate], from tick [t], for [iterations] more ticks. *)
Fixpoint ticksFrom (iterations : nat) (t : N) (sim : Simulation St)
  : Simulation St * list Event :=
  match iterations with
  | O => (sim, [])
  | S n =>
      let '(sim', out) := tick t sim in
      let '(sim'', out') := ticksFrom n (N.succ t) sim' in
      (sim'', out ++ out')
  end.

End Engine.

Definition lockedTotal (pending : LockedAmounts) : Amount :=
  fold_left (fun acc e => (acc + fst e)%float) pending 0%float.

Fixpoint reportChains (chains : Chains) (total : Amount) : Amount * list Event :=
  match chains with
  | [] => (total, [])
  | chain :: rest =>
      let locked := lockedTotal (lockedBalances chain) in
      let '(total', out) :=
        reportChains rest ((total + balance chain) + locked)%float in
      (total', ChainReport (chainName chain) (balance chain) locked :: out)
  end.

Definition reportState (chains : Chains) : list Event :=
  let '(total, out) := reportChains chains 0%float in
  out ++ [TotalReport total].

Definition simulate {St : Type} `{IStrategy St} (iterations : N)
    (sim : Simulation St) : Simulation St * list Event :=
  let before := reportState (m_chains sim) in
  let '(sim', out) := ticksFrom (N.to_nat iterations) 0%N sim in
  (sim', before ++ [StartingSimulation] ++ out ++ [Finished]
           ++ reportState (m_chains sim')).

(** ** The chains of [initRoutes], the placeholder [Strategy] and [main] *)

Definition chainA : Chain :=
  Chain_new "A" (mkChainParams 0.64 0.24 0.0001 1.0005 4 4) 10 30 10.
Definition chainB : Chain :=
  Chain_new "B" (mkChainParams 0.38 0.4 0.0005 1.0003 6 6) 30 10 0.
Definition chainC : Chain :=
  Chain_new "C" (mkChainParams 0.24 0.61 0.0008 1.0009 4 8) 40 30 0.

Definition initRoutes : Chains := [chainA; chainB; chainC].

(** [std::find_if] on the name. *)
Fixpoint getChain (chains : Chains) (name : string) : option Chain :=
  match chains with
  | [] => None
  | chain :: rest =>
      if String.eqb (chainName chain) name then Some chain
      else getChain rest name
  end.

(** [Strategy::onTickRecalc].  Chain C is looked up and never used.  The
    program dereferences the lookups of A and B without a test; with the
    chains of [initRoutes] they are never null, and a null one yields no
    action here. *)
Definition Strategy_onTickRecalc (chains : Chains) : Actions :=
  match getChain chains "A", getChain chains "B" with
  | Some pChainA, Some pChainB =>
      (if (2 <? balance pChainA)%float && (2 <? currentOutflowBal pChainB)%float
       then [mkAction bridge "A" "B" 2] else [])
      ++
      (if (5 <? balance pChainB)%float && (5 <? currentOrderflowBal pChainB)%float
       then [mkAction execute "B" "A" 5] else [])
  | _, _ => []
  end.

#[export] Instance Strategy : IStrategy unit := {
  onTickRecalc := fun st chains => (st, Strategy_onTickRecalc chains)
}.

Definition Simulation_new {St : Type} (strategy : St) : Simulation St :=
  mkSimulation strategy initRoutes.

(** [main]: a thousand ticks of the placeholder strategy. *)
Definition main : Simulation unit * list Event :=
  simulate 1000 (Simulation_new tt).

(** * Vocabulary of the properties *)

(** ** The release pass, entry by entry *)

(** What the predicate does to a countdown: one less when positive. *)
Definition tickDown (ticks : Ticks) : Ticks :=
  if (0 <? ticks)%N then N.pred ticks else ticks.

(** What the predicate does to one entry: [None] when it is released,
    otherwise the entry as it stays in the vector. *)
Definition agePending (e : Amount * Ticks) : option (Amount * Ticks) :=
  if (tickDown e.2 =? 0)%N then None else Some (e.1, tickDown e.2).

Definition releasedAmount (e : Amount * Ticks) : option Amount :=
  if (tickDown e.2 =? 0)%N then Some e.1 else None.

(** The ledger left by one pass, the amounts it releases in order, and
    the balance after crediting them in that order. *)
Definition agedLedger (pending : LockedAmounts) : LockedAmounts :=
  omap agePending pending.

Definition releasedAmounts (pending : LockedAmounts) : list Amount :=
  omap releasedAmount pending.

Definition creditAll (bal : Amount) (amounts : list Amount) : Amount :=
  fold_left (fun acc b => (acc + b)%float) amounts bal.

Definition releaseLines (tickCounter : N) (name : string)
    (amounts : list Amount) : list Event :=
  map (fun b => AmountNowAvailable tickCounter b name) amounts.

Fixpoint agedTimes (k : nat) (pending : LockedAmounts) : LockedAmounts :=
  match k with
  | O => pending
  | S k => agedTimes k (agedLedger pending)
  end.

(** The chains as the strategy is shown them in a tick. *)
Definition snapshot (tickCounter : N) (chains : Chains) : Chains :=
  (tickChains tickCounter chains).1.

Definition isRelease (e : Event) : bool :=
  match e with
  | AmountNowAvailable _ _ _ => true
  | _ => false
  end.

(** ** What the second loop can do to a chain *)

(** [after] is [before] with possibly other pool and balance values and
    with entries pushed at the back of its ledger: name, parameters and
    maxima are the same, and the old entries are all there, unchanged and
    in place. *)
Definition extends (before after : Chain) : Prop :=
  chainName after = chainName before /\
  params after = params before /\
  maxOrderflowBal after = maxOrderflowBal before /\
  maxOutflowBal after = maxOutflowBal before /\
  exists pushed, lockedBalances after = lockedBalances before ++ pushed.

Definition allExtend (before after : Chains) : Prop :=
  length after = length before /\
  forall j c, before !! j = Some c ->
    exists c', after !! j = Some c' /\ extends c c'.

(** ** The account of a balance *)

(** The actions the strategy proposes in tick [tickCounter]: what
    [onTickRecalc] leaves in [actions] when it is shown the chains the
    first loop of that tick has made. *)
Definition proposed {St : Type} `{IStrategy St} (tickCounter : N)
    (sim : Simulation St) : Actions :=
  (onTickRecalc (m_strategy sim) (snapshot tickCounter (m_chains sim))).2.

(** The balance after amounts have been taken from it one after the
    other. *)
Definition debitAll (bal : Amount) (amounts : list Amount) : Amount :=
  fold_left (fun acc b => (acc - b)%float) amounts bal.

(** The amounts of the actions whose source is named [name], in order:
    the second loop takes from the [balance] of a chain of that name the
    amounts of those among them it accepts, and nothing else. *)
Definition debitsOf (name : string) (actions : Actions) : list Amount :=
  amount <$> List.filter (fun action => String.eqb (source action) name) actions.

(** ** The validation checks *)

(** The five validation checks, in the order in which they are listed. *)
Inductive Check :=
| SameChain | ChainResolution | SourceSolvency | DestinationLiquidity | GasCoverage.

(** The pool of the destination an action draws on. *)
Definition destinationPool (ty : ActionType) (dst : Chain) : Amount :=
  match ty with
  | bridge => currentOutflowBal dst
  | execute => currentOrderflowBal dst
  end.

(** The checks asked one after the other in that fixed order: the first
    that fails, or [None] when the action passes all five. *)
Definition firstFailingCheck (chains : Chains) (action : Action) : option Check :=
  if String.eqb (source action) (destination action) then Some SameChain
  else
    match findChains chains 0 (source action) (destination action) None None with
    | (Some s, Some d) =>
        match chains !! s, chains !! d with
        | Some src, Some dst =>
            if (balance src <? amount action)%float then Some SourceSolvency
            else if (destinationPool (type action) dst <? amount action)%float
            then Some DestinationLiquidity
            else if (amount action <? gasCost (params src))%float
            then Some GasCoverage
            else None
        | _, _ => None
        end
    | _ => Some ChainResolution
    end.

(** The line printed for a failed check. *)
Definition reason (ty : ActionType) (check : Check) (tickCounter : N) : Event :=
  match check, ty with
  | SameChain, _ => FailedSameChains tickCounter
  | ChainResolution, _ => FailedToFindChain tickCounter
  | SourceSolvency, _ => InsufficientFunds tickCounter
  | DestinationLiquidity, bridge => InsufficientBridgeDestination tickCounter
  | DestinationLiquidity, execute => InsufficientExecuteDestination tickCounter
  | GasCoverage, bridge => InsufficientBridgeGas tickCounter
  | GasCoverage, execute => InsufficientExecuteGas tickCounter
  end.

(** ** The caps of the two pools *)

(** Neither pool of the chain is above its maximum. *)
Definition withinCaps (c : Chain) : Prop :=
  (maxOrderflowBal c <? currentOrderflowBal c)%float = false /\
  (maxOutflowBal c <? currentOutflowBal c)%float = false.

Definition capsOf (c : Chain) : Amount * Amount :=
  (maxOrderflowBal c, maxOutflowBal c).

(** Both pools of the chain are at or below their maxima. *)
Definition atOrBelowCaps (c : Chain) : Prop :=
  (currentOrderflowBal c <=? maxOrderflowBal c)%float = true /\
  (currentOutflowBal c <=? maxOutflowBal c)%float = true.

(** Neither pool of the chain, and neither maximum, is a NaN. *)
Definition poolsAreNumbers (c : Chain) : Prop :=
  is_nan (currentOrderflowBal c) = false /\
  is_nan (maxOrderflowBal c) = false /\
  is_nan (currentOutflowBal c) = false /\
  is_nan (maxOutflowBal c) = false.

(** ** The phases of a tick *)

(** The tick as four phases, each finished before the next begins: the
    pools of every chain are regenerated; the ledger of every chain is
    aged and what is due released; the strategy is invoked, once, on the
    chains as they then stand; its actions are executed on those chains. *)
Definition regenerate (chain : Chain) : Chain :=
  let chain := set_currentOrderflowBal
    (fmin (currentOrderflowBal chain + orderflowRegenPerTick (params chain))%float
          (maxOrderflowBal chain)) chain in
  set_currentOutflowBal
    (fmin (currentOutflowBal chain + outflowRegenPerTick (params chain))%float
          (maxOutflowBal chain)) chain.

Definition ageAndRelease (tickCounter : N) (chain : Chain) : Chain * list Event :=
  let '(bal, kept, out) :=
    releaseLocked tickCounter (chainName chain) (lockedBalances chain)
      (balance chain) in
  (set_lockedBalances kept (set_balance bal chain), out).

Definition tickByPhases {St : Type} `{IStrategy St} (tickCounter : N)
    (sim : Simulation St) : Simulation St * list Event :=
  let banner :=
    if (tickCounter mod 100 =? 0)%N then [TickBanner tickCounter] else [] in
  let regenerated := map regenerate (m_chains sim) in
  let aged := map (ageAndRelease tickCounter) regenerated in
  let shown := map fst aged in
  let '(st, actions) := onTickRecalc (m_strategy sim) shown in
  let '(chains, out) := execActions tickCounter shown actions in
  (mkSimulation st chains, banner ++ concat (map snd aged) ++ out).

(** ** Ticks without actions *)

(** The balance of a chain after [k] release passes over the ledger
    [pending] and nothing else. *)
Fixpoint idleBalance (k : nat) (bal : Amount) (pending : LockedAmounts) : Amount :=
  match k with
  | O => bal
  | S k =>
      idleBalance k (creditAll bal (releasedAmounts pending)) (agedLedger pending)
  end.

(** A chain after [k] ticks in which no action touches it. *)
Fixpoint idleChain (k : nat) (t : N) (c : Chain) : Chain :=
  match k with
  | O => c
  | S k => idleChain k (N.succ t) (tickChain t c).1
  end.

(** ** Strategies and chains used as examples *)

(** A strategy object that plays a fixed script: its member is the list of
    the action lists still to propose, one per tick, and nothing once the
    script is over. *)
#[export] Instance Scripted : IStrategy (list Actions) := {
  onTickRecalc := fun script _ =>
    match script with
    | [] => ([], [])
    | actions :: rest => (rest, actions)
    end
}.

(** A strategy object wrapped so as to count the calls it receives. *)
#[export] Instance Counted {St : Type} `{IStrategy St} : IStrategy (nat * St) := {
  onTickRecalc := fun counted chains =>
    let '(st, actions) := onTickRecalc counted.2 chains in
    ((S counted.1, st), actions)
}.

(** The chains of [initRoutes] after tick 0 of [main]: the placeholder
    strategy has bridged 2 from A to B. *)
Definition afterFirstTick : Simulation unit :=
  (tick 0 (Simulation_new tt)).1.

Definition chainB_afterFirstTick : Chain :=
  Eval vm_compute in default chainB (m_chains afterFirstTick !! 1).

(** Chain A with a bridging time of zero ticks, next to chain B. *)
Definition instantBridgeChains : Chains :=
  [Chain_new "A" (mkChainParams 0.64 0.24 0.0001 1.0005 0 4) 10 30 10; chainB].

(** Chain A with a bridging time of one tick, next to chain B. *)
Definition oneTickBridgeChains : Chains :=
  [Chain_new "A" (mkChainParams 0.64 0.24 0.0001 1.0005 1 4) 10 30 10; chainB].

(** Chain A with a nearly empty outflow pool, and a chain B with funds. *)
Definition shallowPoolChains : Chains :=
  [Chain_new "A" (mkChainParams 0.64 0.24 0.0001 1.0005 4 4) 10 1 10;
   Chain_new "B" (mkChainParams 0.38 0.4 0.0005 1.0003 6 6) 30 10 10].

(** A chain A whose outflow pool loses 1 per tick instead of gaining, next
    to chain B. *)
Definition decayingPoolChains : Chains :=
  [Chain_new "A" (mkChainParams 0.64 (-1) 0.0001 1.0005 4 4) 10 10 10; chainB].

(** Chain A of [initRoutes] next to a chain B with an outflow pool of 30. *)
Definition scenarioChains : Chains :=
  [chainA; Chain_new "B" (mkChainParams 0.38 0.4 0.0005 1.0003 6 6) 30 30 0].

(** ** An order-preserving key for binary64 values *)

(** A key for each non-NaN value, ordered like the values: [SFcompare] is
    the lexicographic comparison of the keys. *)
Definition rank (x : spec_float) : option (Z * Z * Z) :=
  match x with
  | S754_nan => None
  | S754_zero _ => Some (0, 0, 0)%Z
  | S754_infinity s => Some (if s then (-2)%Z else 2%Z, 0%Z, 0%Z)
  | S754_finite s m e =>
      Some (if s then ((-1)%Z, (- e)%Z, Z.neg m) else (1%Z, e, Z.pos m))
  end.

Definition lex3 (a b : Z * Z * Z) : comparison :=
  match (a.1.1 ?= b.1.1)%Z with
  | Eq => match (a.1.2 ?= b.1.2)%Z with
          | Eq => (a.2 ?= b.2)%Z
          | c => c
          end
  | c => c
  end.

(** ** Vocabulary of the further properties *)

(** The chains A and B of [initRoutes] followed by a second chain named A. *)
Definition twoChainsNamedA : Chains :=
  [chainA; chainB; Chain_new "A" (mkChainParams 0.64 0.24 0.0001 1.0005 4 4) 10 30 7].

(** The two lines that announce an accepted action. *)
Definition isAccepted (e : Event) : bool :=
  match e with
  | Bridged _ _ _ _ _ | Executed _ _ _ _ _ => true
  | _ => false
  end.

(** The seven lines that announce a discarded action. *)
Definition isRejected (e : Event) : bool :=
  match e with
  | FailedSameChains _ | FailedToFindChain _ | InsufficientFunds _
  | InsufficientBridgeDestination _ | InsufficientBridgeGas _
  | InsufficientExecuteDestination _ | InsufficientExecuteGas _ => true
  | _ => false
  end.

(** The members of a chain that the constructor sets and nothing writes
    afterwards. *)
Definition staticPart (c : Chain)
  : string * ChainParams * Amount * Amount * Amount * Amount :=
  (chainName c, params c, currentStrategyBal c,
   maxOrderflowBal c, maxOutflowBal c, maxStrategyBal c).

(** An entry the next release pass releases: countdown 0 or 1. *)
Definition isDue (e : Amount * Ticks) : bool := (e.2 <=? 1)%N.

(** The entry an accepted action pushes. *)
Definition settlementOf (action : Action) (src : Chain) : Amount * Ticks :=
  match type action with
  | bridge => ((amount action - gasCost (params src))%float,
               bridgingTime (params src))
  | execute => (((amount action - gasCost (params src))
                 * executionSurplus (params src))%float,
                inventoryLockTime (params src))
  end.

(** Both lock times of the chain and every countdown in its ledger are at
    most [L]. *)
Definition locksBelow (L : Ticks) (c : Chain) : Prop :=
  (bridgingTime (params c) <= L)%N /\
  (inventoryLockTime (params c) <= L)%N /\
  Forall (fun e => (e.2 <= L)%N) (lockedBalances c).

(** The number of pending entries in all ledgers. *)
Definition countPending (chains : Chains) : nat :=
  sum_list_with (fun c => length (lockedBalances c)) chains.

(** The number of lines of a kind in the output. *)
Definition countLines (p : Event -> bool) (out : list Event) : nat :=
  length (List.filter p out).

(** What [reportState] reads of a chain. *)
Definition reportView (c : Chain) : string * Amount * list Amount :=
  (chainName c, balance c, map fst (lockedBalances c)).

(** * Facts about the embedding *)

(** ** Comparisons of binary64 values *)

Lemma SFcompare_rank (x y : spec_float) :
  SFcompare x y =
    match rank x, rank y with
    | Some a, Some b => Some (lex3 a b)
    | _, _ => None
    end.
Proof.
  destruct x as [sx|sx| |sx mx ex], y as [sy|sy| |sy my ey]; simpl;
    try reflexivity; try (destruct sx; reflexivity);
    try (destruct sy; reflexivity); try (destruct sx, sy; reflexivity).
  destruct sx, sy; try reflexivity; unfold lex3; cbn [fst snd].
  rewrite Z.compare_opp, (Z.compare_antisym ex ey).
  destruct (ex ?= ey)%Z; reflexivity.
Qed.

Lemma lex3_refl (a : Z * Z * Z) : lex3 a a = Eq.
Proof. unfold lex3. now rewrite !Z.compare_refl. Qed.

Lemma lex3_antisym (a b : Z * Z * Z) : lex3 b a = CompOpp (lex3 a b).
Proof.
  unfold lex3.
  rewrite (Z.compare_antisym a.1.1 b.1.1), (Z.compare_antisym a.1.2 b.1.2),
    (Z.compare_antisym a.2 b.2).
  destruct (a.1.1 ?= b.1.1)%Z; try done.
  destruct (a.1.2 ?= b.1.2)%Z; done.
Qed.

Lemma lex3_Lt_trans (a b c : Z * Z * Z) :
  lex3 a b = Lt -> lex3 b c <> Gt -> lex3 a c = Lt.
Proof.
  destruct a as [[a1 a2] a3], b as [[b1 b2] b3], c as [[c1 c2] c3].
  unfold lex3. cbn [fst snd].
  destruct (Z.compare_spec a1 b1), (Z.compare_spec b1 c1),
    (Z.compare_spec a1 c1); try lia; try congruence;
  destruct (Z.compare_spec a2 b2), (Z.compare_spec b2 c2),
    (Z.compare_spec a2 c2); try lia; try congruence;
  destruct (Z.compare_spec a3 b3), (Z.compare_spec b3 c3),
    (Z.compare_spec a3 c3); try lia; try congruence.
Qed.

(** No value is below itself, a NaN included. *)
Lemma ltb_irrefl (x : Amount) : (x <? x)%float = false.
Proof.
  rewrite ltb_spec. unfold SFltb. rewrite SFcompare_rank.
  destruct (rank (Prim2SF x)) as [a|]; [|done]. now rewrite lex3_refl.
Qed.

(** [x <= y] rules out [y < x]: a check written [if (y < x) reject] lets
    through every pair with [x <= y]. *)
Lemma leb_ltb_false (x y : Amount) :
  (x <=? y)%float = true -> (y <? x)%float = false.
Proof.
  rewrite leb_spec, ltb_spec. unfold SFleb, SFltb. rewrite !SFcompare_rank.
  destruct (rank (Prim2SF x)) as [a|], (rank (Prim2SF y)) as [b|]; try done.
  rewrite (lex3_antisym a b). now destruct (lex3 a b).
Qed.

(** [x < y] and [y <= z] give [x < z]. *)
Lemma ltb_leb_trans (x y z : Amount) :
  (x <? y)%float = true -> (y <=? z)%float = true -> (x <? z)%float = true.
Proof.
  rewrite !ltb_spec, leb_spec. unfold SFltb, SFleb.
  rewrite !SFcompare_rank.
  destruct (rank (Prim2SF x)) as [a|], (rank (Prim2SF y)) as [b|],
    (rank (Prim2SF z)) as [c|]; try discriminate.
  intros Hab Hbc.
  rewrite (lex3_Lt_trans a b c); [done| |].
  - destruct (lex3 a b); congruence.
  - destruct (lex3 b c); congruence.
Qed.

(** Two values that are not NaN are ordered one way or the other. *)
Lemma ltb_false_leb (x y : Amount) :
  is_nan x = false -> is_nan y = false ->
  (y <? x)%float = false -> (x <=? y)%float = true.
Proof.
  unfold is_nan. rewrite !FloatAxioms.eqb_spec, ltb_spec, leb_spec.
  unfold SFeqb, SFltb, SFleb. rewrite !SFcompare_rank.
  destruct (rank (Prim2SF x)) as [a|], (rank (Prim2SF y)) as [b|]; try done.
  intros _ _. rewrite (lex3_antisym a b). now destruct (lex3 a b).
Qed.

(** [std::min] with the cap never returns more than the cap. *)
Lemma fmin_cap (a cap : Amount) : (cap <? fmin a cap)%float = false.
Proof.
  unfold fmin. destruct (cap <? a)%float eqn:E; [apply ltb_irrefl | exact E].
Qed.

(** ** The lookup loop *)

Lemma findChains_source (chains : Chains) (i : nat) (src dst : string)
    (ps pd : option nat) (s : nat) :
  (findChains chains i src dst ps pd).1 = Some s ->
  ps = Some s \/
  (i <= s /\ exists c, chains !! (s - i) = Some c /\ chainName c = src).
Proof.
  revert i ps pd. induction chains as [|c chains IH]; intros i ps pd; simpl.
  - auto.
  - destruct (String.eqb_spec (chainName c) src) as [Hn|Hn].
    + intros Hf. destruct (IH _ _ _ Hf) as [[= <-]|(Hle & c' & Hc' & Hname)].
      * right. split; [lia|]. exists c. now rewrite Nat.sub_diag.
      * right. split; [lia|]. exists c'. split; [|done].
        replace (s - i) with (S (s - S i)) by lia. done.
    + destruct (String.eqb (chainName c) dst);
        intros Hf; destruct (IH _ _ _ Hf) as [?|(Hle & c' & Hc' & Hname)];
        auto; right; (split; [lia|]); exists c'; (split; [|done]);
        replace (s - i) with (S (s - S i)) by lia; done.
Qed.

Lemma findChains_destination (chains : Chains) (i : nat) (src dst : string)
    (ps pd : option nat) (d : nat) :
  (findChains chains i src dst ps pd).2 = Some d ->
  pd = Some d \/
  (i <= d /\ exists c, chains !! (d - i) = Some c /\
     chainName c = dst /\ chainName c <> src).
Proof.
  revert i ps pd. induction chains as [|c chains IH]; intros i ps pd; simpl.
  - auto.
  - destruct (String.eqb_spec (chainName c) src) as [Hn|Hn].
    + intros Hf. destruct (IH _ _ _ Hf) as [?|(Hle & c' & Hc' & Hname)]; auto.
      right. split; [lia|]. exists c'. split; [|done].
      replace (d - i) with (S (d - S i)) by lia. done.
    + destruct (String.eqb_spec (chainName c) dst) as [Hd|Hd];
        intros Hf; destruct (IH _ _ _ Hf) as [Hpd|(Hle & c' & Hc' & Hname)].
      * injection Hpd as <-. right. split; [lia|]. exists c.
        now rewrite Nat.sub_diag.
      * right. split; [lia|]. exists c'. split; [|done].
        replace (d - i) with (S (d - S i)) by lia. done.
      * auto.
      * right. split; [lia|]. exists c'. split; [|done].
        replace (d - i) with (S (d - S i)) by lia. done.
Qed.

(** Both pointers set: they point at two different chains of the vector,
    the first named like the source and the second like the destination. *)
Lemma findChains_resolved (chains : Chains) (src dst : string) (s d : nat) :
  findChains chains 0 src dst None None = (Some s, Some d) ->
  s <> d /\
  (exists c, chains !! s = Some c /\ chainName c = src) /\
  (exists c, chains !! d = Some c /\ chainName c = dst).
Proof.
  intros Hf.
  assert (Hs : (findChains chains 0 src dst None None).1 = Some s)
    by now rewrite Hf.
  assert (Hd : (findChains chains 0 src dst None None).2 = Some d)
    by now rewrite Hf.
  apply findChains_source in Hs as [?|(_ & c & Hc & Hcn)]; [done|].
  apply findChains_destination in Hd as [?|(_ & c' & Hc' & Hcn' & Hne)]; [done|].
  rewrite Nat.sub_0_r in Hc, Hc'.
  split; [intros ->; congruence | split; eauto].
Qed.

(** ** Accepted and rejected actions *)

(** Equalities between vectors of chains written through pointers
    ([alter]) or given element by element (insert), decided index by
    index. *)
Ltac chains_eq Hs Hd :=
  apply list_eq; intros ?k;
  pose proof (lookup_lt_Some _ _ _ Hs); pose proof (lookup_lt_Some _ _ _ Hd);
  repeat first
    [ rewrite list_lookup_alter | rewrite list_lookup_insert
    | rewrite length_insert | rewrite length_alter ];
  repeat case_decide; subst; rewrite ?Hs, ?Hd; simpl; try done; try lia;
  try (exfalso; intuition lia).

Lemma execAction_bridge (tickCounter : N) (chains : Chains) (action : Action)
    (s d : nat) (src dst : Chain) :
  type action = bridge ->
  String.eqb (source action) (destination action) = false ->
  findChains chains 0 (source action) (destination action) None None
    = (Some s, Some d) ->
  chains !! s = Some src -> chains !! d = Some dst ->
  (balance src <? amount action)%float = false ->
  (currentOutflowBal dst <? amount action)%float = false ->
  (amount action <? gasCost (params src))%float = false ->
  execAction tickCounter chains action =
    (<[d := push_back
         ((amount action - gasCost (params src))%float, bridgingTime (params src))
         (set_currentOutflowBal (currentOutflowBal dst - amount action)%float dst)]>
     (<[s := set_balance (balance src - amount action)%float
         (set_currentOutflowBal (currentOutflowBal src + amount action)%float src)]>
      chains),
     [Bridged tickCounter (chainName src) (chainName dst)
        (amount action - gasCost (params src))%float (bridgingTime (params src))]).
Proof.
  intros Hty Hsame Hfind Hs Hd Hbal Hpool Hgas.
  destruct (findChains_resolved _ _ _ _ _ Hfind) as (Hne & _).
  unfold execAction. rewrite Hsame, Hfind, Hs, Hd, Hbal, Hty, Hpool, Hgas.
  f_equal. chains_eq Hs Hd.
Qed.

Lemma execAction_execute (tickCounter : N) (chains : Chains) (action : Action)
    (s d : nat) (src dst : Chain) :
  type action = execute ->
  String.eqb (source action) (destination action) = false ->
  findChains chains 0 (source action) (destination action) None None
    = (Some s, Some d) ->
  chains !! s = Some src -> chains !! d = Some dst ->
  (balance src <? amount action)%float = false ->
  (currentOrderflowBal dst <? amount action)%float = false ->
  (amount action <? gasCost (params src))%float = false ->
  execAction tickCounter chains action =
    (<[d := push_back
         (((amount action - gasCost (params src)) * executionSurplus (params src))%float,
          inventoryLockTime (params src))
         (set_currentOrderflowBal (currentOrderflowBal dst - amount action)%float dst)]>
     (<[s := set_balance (balance src - amount action)%float src]> chains),
     [Executed tickCounter (chainName src) (chainName dst)
        ((amount action - gasCost (params src)) * executionSurplus (params src))%float
        (inventoryLockTime (params src))]).
Proof.
  intros Hty Hsame Hfind Hs Hd Hbal Hpool Hgas.
  destruct (findChains_resolved _ _ _ _ _ Hfind) as (Hne & _).
  unfold execAction. rewrite Hsame, Hfind, Hs, Hd, Hbal, Hty, Hpool, Hgas.
  f_equal. chains_eq Hs Hd.
Qed.

Lemma execAction_rejected (tickCounter : N) (chains : Chains) (action : Action)
    (check : Check) :
  firstFailingCheck chains action = Some check ->
  execAction tickCounter chains action =
    (chains, [reason (type action) check tickCounter]).
Proof.
  unfold firstFailingCheck, execAction, destinationPool, reason.
  destruct (String.eqb _ _); [now intros [= <-]|].
  destruct (findChains _ _ _ _ _ _) as [[s|] [d|]]; try now intros [= <-].
  destruct (chains !! s) as [src|], (chains !! d) as [dst|]; try done.
  destruct (balance src <? amount action)%float; [now intros [= <-]|].
  destruct (type action).
  - destruct (currentOutflowBal dst <? amount action)%float; [now intros [= <-]|].
    destruct (amount action <? gasCost (params src))%float; [now intros [= <-]|done].
  - destruct (currentOrderflowBal dst <? amount action)%float; [now intros [= <-]|].
    destruct (amount action <? gasCost (params src))%float; [now intros [= <-]|done].
Qed.

Lemma execActions_app (tickCounter : N) (chains : Chains) (pre post : Actions) :
  execActions tickCounter chains (pre ++ post) =
    let '(chains', out) := execActions tickCounter chains pre in
    let '(chains'', out') := execActions tickCounter chains' post in
    (chains'', out ++ out').
Proof.
  revert chains. induction pre as [|a pre IH]; intros chains; simpl.
  - now destruct (execActions tickCounter chains post).
  - destruct (execAction tickCounter chains a) as [c1 o1].
    rewrite IH. destruct (execActions tickCounter c1 pre) as [c2 o2].
    destruct (execActions tickCounter c2 post) as [c3 o3].
    now rewrite app_assoc.
Qed.

Lemma execAction_no_release (tickCounter : N) (chains : Chains) (action : Action) :
  Forall (fun e => isRelease e = false) (execAction tickCounter chains action).2.
Proof.
  unfold execAction.
  repeat match goal with
    | |- context [if ?b then _ else _] => destruct b
    | |- context [match ?x with _ => _ end] => destruct x
    end; cbn [snd]; repeat constructor.
Qed.

Lemma execActions_no_release (tickCounter : N) (chains : Chains) (actions : Actions) :
  Forall (fun e => isRelease e = false) (execActions tickCounter chains actions).2.
Proof.
  revert chains. induction actions as [|a actions IH]; intros chains; simpl.
  - constructor.
  - pose proof (execAction_no_release tickCounter chains a) as Ha.
    destruct (execAction tickCounter chains a) as [c1 o1].
    pose proof (IH c1) as Hr.
    destruct (execActions tickCounter c1 actions) as [c2 o2].
    apply Forall_app. done.
Qed.

(** ** The release pass *)

Lemma tickDown_le_1 (n : Ticks) : (n <= 1)%N -> tickDown n = 0%N.
Proof. unfold tickDown. destruct (N.ltb_spec 0 n); lia. Qed.

Lemma tickDown_ge_2 (n : Ticks) :
  (2 <= n)%N -> tickDown n = (n - 1)%N /\ tickDown n <> 0%N.
Proof. unfold tickDown. destruct (N.ltb_spec 0 n); lia. Qed.

Lemma agePending_due (a : Amount) (n : Ticks) :
  (n <= 1)%N -> agePending (a, n) = None /\ releasedAmount (a, n) = Some a.
Proof.
  intros Hn. unfold agePending, releasedAmount. simpl.
  now rewrite (tickDown_le_1 n Hn).
Qed.

Lemma agePending_waiting (a : Amount) (n : Ticks) :
  (2 <= n)%N ->
  agePending (a, n) = Some (a, (n - 1)%N) /\ releasedAmount (a, n) = None.
Proof.
  intros Hn. unfold agePending, releasedAmount. simpl.
  destruct (tickDown_ge_2 n Hn) as [-> Hne].
  apply N.eqb_neq in Hne. now rewrite Hne.
Qed.

Lemma releaseLocked_spec (tickCounter : N) (name : string)
    (pending : LockedAmounts) (bal : Amount) :
  releaseLocked tickCounter name pending bal =
    (creditAll bal (releasedAmounts pending), agedLedger pending,
     releaseLines tickCounter name (releasedAmounts pending)).
Proof.
  revert bal. induction pending as [|[b ticks] rest IH]; intros bal; [done|].
  cbn [releaseLocked].
  change (if (0 <? ticks)%N then N.pred ticks else ticks) with (tickDown ticks).
  rewrite !IH. unfold agedLedger, releasedAmounts. cbn [omap list_omap].
  unfold agePending, releasedAmount. cbn [fst snd].
  destruct (tickDown ticks =? 0)%N; reflexivity.
Qed.

Lemma agedLedger_app (l1 l2 : LockedAmounts) :
  agedLedger (l1 ++ l2) = agedLedger l1 ++ agedLedger l2.
Proof. apply omap_app. Qed.

Lemma releasedAmounts_app (l1 l2 : LockedAmounts) :
  releasedAmounts (l1 ++ l2) = releasedAmounts l1 ++ releasedAmounts l2.
Proof. apply omap_app. Qed.

Lemma creditAll_app (bal : Amount) (l1 l2 : list Amount) :
  creditAll bal (l1 ++ l2) = creditAll (creditAll bal l1) l2.
Proof. apply fold_left_app. Qed.

Lemma ledger_due (pre post : LockedAmounts) (a : Amount) (n : Ticks) :
  (n <= 1)%N ->
  agedLedger (pre ++ (a, n) :: post) = agedLedger pre ++ agedLedger post /\
  releasedAmounts (pre ++ (a, n) :: post)
    = releasedAmounts pre ++ a :: releasedAmounts post.
Proof.
  intros Hn. rewrite agedLedger_app, releasedAmounts_app.
  destruct (agePending_due a n Hn) as [Ha Hr].
  unfold agedLedger, releasedAmounts. cbn [omap list_omap].
  now rewrite Ha, Hr.
Qed.

Lemma ledger_waiting (pre post : LockedAmounts) (a : Amount) (n : Ticks) :
  (2 <= n)%N ->
  agedLedger (pre ++ (a, n) :: post)
    = agedLedger pre ++ (a, (n - 1)%N) :: agedLedger post /\
  releasedAmounts (pre ++ (a, n) :: post)
    = releasedAmounts pre ++ releasedAmounts post.
Proof.
  intros Hn. rewrite agedLedger_app, releasedAmounts_app.
  destruct (agePending_waiting a n Hn) as [Ha Hr].
  unfold agedLedger, releasedAmounts. cbn [omap list_omap].
  now rewrite Ha, Hr.
Qed.

Lemma ledger_last_waiting (pending : LockedAmounts) (a : Amount) (n : Ticks) :
  (2 <= n)%N ->
  agedLedger (pending ++ [(a, n)]) = agedLedger pending ++ [(a, (n - 1)%N)] /\
  releasedAmounts (pending ++ [(a, n)]) = releasedAmounts pending.
Proof.
  intros Hn. destruct (ledger_waiting pending [] a n Hn) as [-> ->].
  split; [done|]. apply app_nil_r.
Qed.

Lemma ledger_last_due (pending : LockedAmounts) (a : Amount) (n : Ticks) :
  (n <= 1)%N ->
  agedLedger (pending ++ [(a, n)]) = agedLedger pending /\
  releasedAmounts (pending ++ [(a, n)]) = releasedAmounts pending ++ [a].
Proof.
  intros Hn. destruct (ledger_due pending [] a n Hn) as [-> ->].
  split; [apply app_nil_r|done].
Qed.

Lemma agedTimes_succ (k : nat) (pending : LockedAmounts) :
  agedTimes (S k) pending = agedLedger (agedTimes k pending).
Proof.
  revert pending. induction k as [|k IH]; intros pending; [done|].
  cbn [agedTimes]. now rewrite <- IH.
Qed.

(** A ledger whose last entry has four ticks to go, through four passes:
    the entry is gone, and its amount is the last one added. *)
Lemma four_passes_last_entry (pending : LockedAmounts) (a bal : Amount) :
  agedTimes 4 (pending ++ [(a, 4%N)]) = agedTimes 4 pending /\
  idleBalance 4 bal (pending ++ [(a, 4%N)])
    = (idleBalance 4 bal pending + a)%float.
Proof.
  cbn [agedTimes idleBalance].
  destruct (ledger_last_waiting pending a 4%N ltac:(lia)) as [-> ->].
  destruct (ledger_last_waiting (agedLedger pending) a (4 - 1)%N ltac:(lia))
    as [-> ->].
  destruct (ledger_last_waiting (agedLedger (agedLedger pending)) a
              (4 - 1 - 1)%N ltac:(lia)) as [-> ->].
  destruct (ledger_last_due (agedLedger (agedLedger (agedLedger pending))) a
              (4 - 1 - 1 - 1)%N ltac:(lia)) as [-> ->].
  split; [done|]. now rewrite creditAll_app.
Qed.

(** The first loop's body, member by member. *)
Lemma tickChain_spec (tickCounter : N) (chain : Chain) :
  tickChain tickCounter chain =
    ({| chainName := chainName chain;
        currentOrderflowBal :=
          fmin (currentOrderflowBal chain
                + orderflowRegenPerTick (params chain))%float
               (maxOrderflowBal chain);
        currentOutflowBal :=
          fmin (currentOutflowBal chain
                + outflowRegenPerTick (params chain))%float
               (maxOutflowBal chain);
        currentStrategyBal := currentStrategyBal chain;
        maxOrderflowBal := maxOrderflowBal chain;
        maxOutflowBal := maxOutflowBal chain;
        maxStrategyBal := maxStrategyBal chain;
        params := params chain;
        balance :=
          creditAll (balance chain) (releasedAmounts (lockedBalances chain));
        lockedBalances := agedLedger (lockedBalances chain) |},
     releaseLines tickCounter (chainName chain)
       (releasedAmounts (lockedBalances chain))).
Proof. unfold tickChain. simpl. now rewrite releaseLocked_spec. Qed.

Lemma tickChain_phases (tickCounter : N) (chain : Chain) :
  tickChain tickCounter chain = ageAndRelease tickCounter (regenerate chain).
Proof. reflexivity. Qed.

Lemma tickChains_spec (tickCounter : N) (chains : Chains) :
  tickChains tickCounter chains =
    (map (fun c => (tickChain tickCounter c).1) chains,
     concat (map (fun c => (tickChain tickCounter c).2) chains)).
Proof.
  induction chains as [|c chains IH]; [done|].
  cbn [tickChains map concat]. rewrite IH.
  now destruct (tickChain tickCounter c).
Qed.

Lemma snapshot_lookup (tickCounter : N) (chains : Chains) (j : nat) :
  snapshot tickCounter chains !! j
    = (fun c => (tickChain tickCounter c).1) <$> chains !! j.
Proof.
  unfold snapshot. rewrite tickChains_spec. simpl. apply list_lookup_fmap.
Qed.

(** A pass over a ledger in which [(a, n)] is due. *)
Lemma tickChain_due (tickCounter : N) (c : Chain) (pre post : LockedAmounts)
    (a : Amount) (n : Ticks) :
  lockedBalances c = pre ++ (a, n) :: post ->
  (n <= 1)%N ->
  lockedBalances (tickChain tickCounter c).1 = agedLedger pre ++ agedLedger post /\
  balance (tickChain tickCounter c).1 =
    creditAll (balance c) (releasedAmounts pre ++ a :: releasedAmounts post) /\
  (tickChain tickCounter c).2 =
    releaseLines tickCounter (chainName c) (releasedAmounts pre)
    ++ AmountNowAvailable tickCounter a (chainName c)
    :: releaseLines tickCounter (chainName c) (releasedAmounts post).
Proof.
  intros Hl Hn. rewrite tickChain_spec. cbn [fst snd lockedBalances balance].
  rewrite Hl. destruct (ledger_due pre post a n Hn) as [-> ->].
  repeat split. unfold releaseLines. now rewrite map_app.
Qed.

(** A pass over a ledger in which [(a, n)] has two ticks or more to go. *)
Lemma tickChain_waiting (tickCounter : N) (c : Chain) (pre post : LockedAmounts)
    (a : Amount) (n : Ticks) :
  lockedBalances c = pre ++ (a, n) :: post ->
  (2 <= n)%N ->
  lockedBalances (tickChain tickCounter c).1 =
    agedLedger pre ++ (a, (n - 1)%N) :: agedLedger post /\
  balance (tickChain tickCounter c).1 =
    creditAll (balance c) (releasedAmounts pre ++ releasedAmounts post) /\
  (tickChain tickCounter c).2 =
    releaseLines tickCounter (chainName c) (releasedAmounts pre)
    ++ releaseLines tickCounter (chainName c) (releasedAmounts post).
Proof.
  intros Hl Hn. rewrite tickChain_spec. cbn [fst snd lockedBalances balance].
  rewrite Hl. destruct (ledger_waiting pre post a n Hn) as [-> ->].
  repeat split. unfold releaseLines. now rewrite map_app.
Qed.

Lemma tickChain_name (tickCounter : N) (c : Chain) :
  chainName (tickChain tickCounter c).1 = chainName c.
Proof. now rewrite tickChain_spec. Qed.

Lemma tickChain_withinCaps (tickCounter : N) (c : Chain) :
  withinCaps (tickChain tickCounter c).1.
Proof. rewrite tickChain_spec. split; apply fmin_cap. Qed.

Lemma snapshot_withinCaps (tickCounter : N) (chains : Chains) :
  Forall withinCaps (snapshot tickCounter chains).
Proof.
  unfold snapshot. rewrite tickChains_spec. cbn [fst].
  apply Forall_fmap, Forall_forall. intros c _. apply tickChain_withinCaps.
Qed.

Lemma withinCaps_atOrBelowCaps (c : Chain) :
  withinCaps c -> poolsAreNumbers c -> atOrBelowCaps c.
Proof.
  intros [H1 H2] (N1 & N2 & N3 & N4). split; now apply ltb_false_leb.
Qed.

Lemma snapshot_caps (tickCounter : N) (chains : Chains) :
  capsOf <$> snapshot tickCounter chains = capsOf <$> chains.
Proof.
  unfold snapshot. rewrite tickChains_spec. cbn [fst].
  rewrite <- list_fmap_compose. apply list_fmap_ext. intros i c _.
  cbn. now rewrite tickChain_spec.
Qed.

(** ** Chains through the second loop *)

Lemma extends_refl (c : Chain) : extends c c.
Proof. repeat split. exists []. now rewrite app_nil_r. Qed.

Lemma extends_trans (c1 c2 c3 : Chain) :
  extends c1 c2 -> extends c2 c3 -> extends c1 c3.
Proof.
  intros (? & ? & ? & ? & p & Hp) (? & ? & ? & ? & q & Hq).
  repeat split; try congruence.
  exists (p ++ q). rewrite Hq, Hp. now rewrite app_assoc.
Qed.

Lemma alter_extends (f : Chain -> Chain) (chains : Chains) (i j : nat) (c : Chain) :
  (forall x, extends x (f x)) ->
  chains !! j = Some c ->
  exists c', alter f i chains !! j = Some c' /\ extends c c'.
Proof.
  intros Hf Hj. rewrite list_lookup_alter.
  case_decide; subst.
  - rewrite Hj. simpl. eauto.
  - eauto using extends_refl.
Qed.

Lemma extends_set_currentOrderflowBal (v : Amount) (c : Chain) :
  extends c (set_currentOrderflowBal v c).
Proof. repeat split. exists []. simpl. now rewrite app_nil_r. Qed.

Lemma extends_set_currentOutflowBal (v : Amount) (c : Chain) :
  extends c (set_currentOutflowBal v c).
Proof. repeat split. exists []. simpl. now rewrite app_nil_r. Qed.

Lemma extends_set_balance (v : Amount) (c : Chain) : extends c (set_balance v c).
Proof. repeat split. exists []. simpl. now rewrite app_nil_r. Qed.

Lemma extends_push_back (e : Amount * Ticks) (c : Chain) : extends c (push_back e c).
Proof. repeat split. now exists [e]. Qed.

Lemma allExtend_refl (chains : Chains) : allExtend chains chains.
Proof. split; [done|]. intros j c Hj. eauto using extends_refl. Qed.

Lemma allExtend_trans (c1 c2 c3 : Chains) :
  allExtend c1 c2 -> allExtend c2 c3 -> allExtend c1 c3.
Proof.
  intros [Hl12 H12] [Hl23 H23]. split; [congruence|]. intros j c Hj.
  destruct (H12 _ _ Hj) as (c' & Hj' & He).
  destruct (H23 _ _ Hj') as (c'' & Hj'' & He').
  eauto using extends_trans.
Qed.

Lemma allExtend_alter (f : Chain -> Chain) (chains : Chains) (i : nat) :
  (forall x, extends x (f x)) -> allExtend chains (alter f i chains).
Proof.
  intros Hf. split; [apply length_alter|].
  intros j c Hj. now apply alter_extends.
Qed.

Lemma execAction_extends (tickCounter : N) (chains : Chains) (action : Action) :
  allExtend chains (execAction tickCounter chains action).1.
Proof.
  unfold execAction.
  repeat first
    [ apply allExtend_refl
    | match goal with
      | |- context [if ?b then _ else _] => destruct b
      | |- context [match ?x with _ => _ end] => destruct x
      end ]; cbn [fst].
  - repeat (eapply allExtend_trans; [|apply allExtend_alter]);
      auto using allExtend_refl, extends_set_currentOutflowBal,
        extends_set_balance, extends_push_back.
  - repeat (eapply allExtend_trans; [|apply allExtend_alter]);
      auto using allExtend_refl, extends_set_currentOrderflowBal,
        extends_set_balance, extends_push_back.
Qed.

Lemma execActions_extends (tickCounter : N) (chains : Chains) (actions : Actions) :
  allExtend chains (execActions tickCounter chains actions).1.
Proof.
  revert chains. induction actions as [|a actions IH]; intros chains; simpl.
  - apply allExtend_refl.
  - pose proof (execAction_extends tickCounter chains a) as Ha.
    destruct (execAction tickCounter chains a) as [c1 o1].
    pose proof (IH c1) as Hr.
    destruct (execActions tickCounter c1 actions) as [c2 o2].
    eapply allExtend_trans; eauto.
Qed.

Lemma allExtend_caps (before after : Chains) :
  allExtend before after -> capsOf <$> after = capsOf <$> before.
Proof.
  intros [Hlen Hext]. apply list_eq. intros i.
  rewrite !list_lookup_fmap.
  destruct (before !! i) as [c|] eqn:Hi.
  - destruct (Hext i c Hi) as (c' & Hi' & _ & _ & Ho & Hf & _).
    rewrite Hi'. cbn. unfold capsOf. now rewrite Ho, Hf.
  - apply lookup_ge_None in Hi. rewrite lookup_ge_None_2 by lia. done.
Qed.

Lemma debitsOf_cons (name : string) (action : Action) (actions : Actions) :
  debitsOf name (action :: actions) =
    if String.eqb (source action) name
    then amount action :: debitsOf name actions
    else debitsOf name actions.
Proof.
  unfold debitsOf. cbn [List.filter].
  now destruct (String.eqb (source action) name).
Qed.

(** One action against the balance of one chain: it is left as it is, or,
    when the chain is named as the action's source, the action's amount
    is taken from it.  Name and ledger are as in [extends]. *)
Lemma execAction_balance (tickCounter : N) (chains : Chains) (action : Action)
    (j : nat) (c : Chain) :
  chains !! j = Some c ->
  exists c', (execAction tickCounter chains action).1 !! j = Some c' /\
    extends c c' /\
    (balance c' = balance c \/
     (String.eqb (source action) (chainName c) = true /\
      balance c' = (balance c - amount action)%float)).
Proof.
  intros Hj.
  destruct (firstFailingCheck chains action) as [check|] eqn:Hc.
  { rewrite (execAction_rejected _ _ _ _ Hc). cbn [fst].
    exists c. eauto using extends_refl. }
  revert Hc. unfold firstFailingCheck.
  destruct (String.eqb _ _) eqn:Hsame; [done|].
  destruct (findChains chains 0 (source action) (destination action) None None)
    as [[s|] [d|]] eqn:Hf; try done.
  destruct (findChains_resolved _ _ _ _ _ Hf)
    as (Hne & (src & Hs & Hsn) & (dst & Hd & Hdn)).
  rewrite Hs, Hd.
  destruct (balance src <? amount action)%float eqn:H1; [done|].
  destruct (destinationPool (type action) dst <? amount action)%float eqn:H2;
    [done|].
  destruct (amount action <? gasCost (params src))%float eqn:H3; [done|].
  intros _.
  pose proof (lookup_lt_Some _ _ _ Hs) as Hls.
  pose proof (lookup_lt_Some _ _ _ Hd) as Hld.
  destruct (type action) eqn:Hty; cbn [destinationPool] in H2.
  - rewrite (execAction_bridge tickCounter chains action s d src dst) by done.
    cbn [fst].
    destruct (decide (j = d)) as [->|Hjd].
    + rewrite list_lookup_insert_eq by now rewrite length_insert.
      assert (c = dst) as -> by congruence.
      eexists. split; [done|]. split; [|now left].
      repeat split. now exists [((amount action - gasCost (params src))%float,
                                   bridgingTime (params src))].
    + rewrite list_lookup_insert_ne by done.
      destruct (decide (j = s)) as [->|Hjs].
      * rewrite list_lookup_insert_eq by done.
        assert (c = src) as -> by congruence.
        eexists. split; [done|]. split.
        { repeat split. exists []. cbn. now rewrite app_nil_r. }
        right. split; [|done]. rewrite Hsn. apply String.eqb_refl.
      * rewrite list_lookup_insert_ne by done.
        exists c. eauto using extends_refl.
  - rewrite (execAction_execute tickCounter chains action s d src dst) by done.
    cbn [fst].
    destruct (decide (j = d)) as [->|Hjd].
    + rewrite list_lookup_insert_eq by now rewrite length_insert.
      assert (c = dst) as -> by congruence.
      eexists. split; [done|]. split; [|now left].
      repeat split.
      now exists [(((amount action - gasCost (params src))
                    * executionSurplus (params src))%float,
                   inventoryLockTime (params src))].
    + rewrite list_lookup_insert_ne by done.
      destruct (decide (j = s)) as [->|Hjs].
      * rewrite list_lookup_insert_eq by done.
        assert (c = src) as -> by congruence.
        eexists. split; [done|]. split.
        { repeat split. exists []. cbn. now rewrite app_nil_r. }
        right. split; [|done]. rewrite Hsn. apply String.eqb_refl.
      * rewrite list_lookup_insert_ne by done.
        exists c. eauto using extends_refl.
Qed.

(** The second loop against one chain: entries are pushed behind its
    ledger, and amounts of actions that name it as their source are taken
    from its balance, in the order of the actions. *)
Lemma execActions_balance (tickCounter : N) (chains : Chains) (actions : Actions)
    (j : nat) (c : Chain) :
  chains !! j = Some c ->
  exists c' pushed debits,
    (execActions tickCounter chains actions).1 !! j = Some c' /\
    chainName c' = chainName c /\
    lockedBalances c' = lockedBalances c ++ pushed /\
    balance c' = debitAll (balance c) debits /\
    debits `sublist_of` debitsOf (chainName c) actions.
Proof.
  revert chains c. induction actions as [|a actions IH]; intros chains c Hj.
  - exists c, [], []. cbn. rewrite app_nil_r. done.
  - cbn [execActions].
    destruct (execAction_balance tickCounter chains a j c Hj)
      as (c1 & Hj1 & (Hn1 & _ & _ & _ & p1 & Hp1) & Hb1).
    destruct (execAction tickCounter chains a) as [chains1 o1].
    cbn [fst] in Hj1.
    destruct (IH chains1 c1 Hj1) as (c' & p & debits & Hj' & Hn' & Hp & Hb & Hs).
    destruct (execActions tickCounter chains1 actions) as [chains2 o2].
    cbn [fst] in *.
    rewrite Hn1 in Hs, Hn'. rewrite debitsOf_cons.
    destruct Hb1 as [Hb1|[Hsrc Hb1]].
    + exists c', (p1 ++ p), debits. split; [done|]. split; [done|].
      split; [now rewrite Hp, Hp1, app_assoc|].
      split; [now rewrite Hb, Hb1|].
      destruct (String.eqb (source a) (chainName c)); [|done].
      now apply sublist_cons.
    + exists c', (p1 ++ p), (amount a :: debits). split; [done|].
      split; [done|]. split; [now rewrite Hp, Hp1, app_assoc|].
      split; [now rewrite Hb, Hb1|].
      rewrite Hsrc. now apply sublist_skip.
Qed.

(** ** Runs *)

Section Runs.
Context {St : Type} `{IStrategy St}.

(** [tick], with the chains shown to the strategy named. *)
Lemma tick_snapshot (tickCounter : N) (sim : Simulation St) :
  (tick tickCounter sim).1 =
    let shown := snapshot tickCounter (m_chains sim) in
    let '(st, actions) := onTickRecalc (m_strategy sim) shown in
    mkSimulation st (execActions tickCounter shown actions).1.
Proof.
  unfold tick, snapshot.
  destruct (tickChains tickCounter (m_chains sim)) as [chains released].
  cbn [fst]. destruct (onTickRecalc (m_strategy sim) chains) as [st actions].
  now destruct (execActions tickCounter chains actions).
Qed.

(** Each chain after a tick is the chain the first loop made of it, with
    whatever the second loop did to it. *)
Lemma tick_chain (tickCounter : N) (sim : Simulation St) (j : nat) (c : Chain) :
  m_chains sim !! j = Some c ->
  exists c', m_chains (tick tickCounter sim).1 !! j = Some c' /\
             extends (tickChain tickCounter c).1 c'.
Proof.
  intros Hj. rewrite tick_snapshot. cbn zeta.
  destruct (onTickRecalc _ _) as [st actions]. cbn [m_chains].
  apply execActions_extends. rewrite snapshot_lookup, Hj. done.
Qed.

Lemma ticksFrom_succ (k : nat) (t : N) (sim : Simulation St) :
  (ticksFrom (S k) t sim).1 = (ticksFrom k (N.succ t) (tick t sim).1).1.
Proof.
  cbn [ticksFrom]. destruct (tick t sim) as [sim' out]. cbn [fst].
  now destruct (ticksFrom k (N.succ t) sim').
Qed.

Lemma ticksFrom_last (k : nat) (t : N) (sim : Simulation St) :
  (ticksFrom (S k) t sim).1 =
    (tick (t + N.of_nat k) (ticksFrom k t sim).1).1.
Proof.
  revert t sim. induction k as [|k IH]; intros t sim.
  - rewrite ticksFrom_succ. cbn [ticksFrom fst]. now rewrite N.add_0_r.
  - rewrite ticksFrom_succ, IH, <- ticksFrom_succ.
    do 2 f_equal. lia.
Qed.

(** An entry with countdown [n] is still in its ledger, [k] lower, after
    each of the next [k < max n 1] ticks, right behind what is left of the
    entries that were in front of it. *)
Lemma entry_countdown (k : nat) (t : N) (sim : Simulation St) (j : nat)
    (c : Chain) (pre post : LockedAmounts) (a : Amount) (n : Ticks) :
  m_chains sim !! j = Some c ->
  lockedBalances c = pre ++ (a, n) :: post ->
  (N.of_nat k < N.max n 1)%N ->
  exists c' post',
    m_chains (ticksFrom k t sim).1 !! j = Some c' /\
    lockedBalances c' = agedTimes k pre ++ (a, (n - N.of_nat k)%N) :: post' /\
    chainName c' = chainName c.
Proof.
  revert t sim c pre post n.
  induction k as [|k IH]; intros t sim c pre post n Hj Hl Hk.
  - exists c, post. cbn [ticksFrom fst agedTimes].
    now rewrite N.sub_0_r.
  - assert (Hn : (2 <= n)%N) by lia.
    destruct (tick_chain t sim j c Hj) as (c1 & Hj1 & Hn1 & _ & _ & _ & p & Hp).
    destruct (tickChain_waiting t c pre post a n Hl Hn) as (Hl1 & _ & _).
    rewrite Hl1, <- app_assoc in Hp. cbn [app] in Hp.
    destruct (IH (N.succ t) (tick t sim).1 c1 (agedLedger pre)
                (agedLedger post ++ p) (n - 1)%N Hj1 Hp ltac:(lia))
      as (c' & post' & Hj' & Hl' & Hn').
    exists c', post'. rewrite ticksFrom_succ. cbn [agedTimes].
    split; [done|]. split.
    + rewrite Hl'. do 3 f_equal. lia.
    + now rewrite Hn', Hn1, tickChain_name.
Qed.

(** The tick in which the entry is released: the first tick past the
    [max n 1 - 1] in which it waits. *)
Lemma entry_release (t : N) (sim : Simulation St) (j : nat)
    (c : Chain) (pre post : LockedAmounts) (a : Amount) (n : Ticks) :
  m_chains sim !! j = Some c ->
  lockedBalances c = pre ++ (a, n) :: post ->
  let m := N.to_nat (N.max n 1) in
  let due := (t + N.max n 1)%N in
  let before := (ticksFrom (m - 1) (N.succ t) sim).1 in
  exists c' post' shown,
    m_chains before !! j = Some c' /\
    lockedBalances c' =
      agedTimes (m - 1) pre ++ (a, (n - N.of_nat (m - 1))%N) :: post' /\
    snapshot due (m_chains before) !! j = Some shown /\
    lockedBalances shown = agedTimes m pre ++ agedLedger post' /\
    balance shown =
      creditAll (balance c')
        (releasedAmounts (agedTimes (m - 1) pre) ++ a :: releasedAmounts post') /\
    (tickChain due c').2 =
      releaseLines due (chainName c) (releasedAmounts (agedTimes (m - 1) pre))
      ++ AmountNowAvailable due a (chainName c)
      :: releaseLines due (chainName c) (releasedAmounts post') /\
    exists c'' pushed,
      m_chains (ticksFrom m (N.succ t) sim).1 !! j = Some c'' /\
      lockedBalances c'' = agedTimes m pre ++ agedLedger post' ++ pushed.
Proof.
  intros Hj Hl m due before.
  destruct (entry_countdown (m - 1) (N.succ t) sim j c pre post a n Hj Hl
              ltac:(lia)) as (c' & post' & Hj' & Hl' & Hn').
  fold before in Hj'.
  destruct (tickChain_due due c' _ _ _ _ Hl' ltac:(lia)) as (Hl1 & Hb1 & He1).
  assert (Hm : agedTimes m pre = agedLedger (agedTimes (m - 1) pre)).
  { replace m with (S (m - 1)) at 1 by lia. generalize (m - 1). clear.
    intros k. revert pre. induction k as [|k IH]; intros pre; [done|].
    cbn [agedTimes]. now rewrite <- IH. }
  exists c', post', (tickChain due c').1.
  split; [done|]. split; [done|]. split.
  { rewrite snapshot_lookup, Hj'. done. }
  split; [now rewrite Hm|]. split; [done|]. split; [now rewrite <- Hn'|].
  destruct (tick_chain due before j c' Hj') as (c'' & Hj'' & _ & _ & _ & _ & p & Hp).
  exists c'', p. split.
  - replace m with (S (m - 1)) by lia. rewrite ticksFrom_last.
    fold before. replace (N.succ t + N.of_nat (m - 1))%N with due by lia.
    done.
  - now rewrite Hp, Hl1, Hm, <- app_assoc.
Qed.

End Runs.

(** ** The account of one chain through a run *)

Section Accounts.
Context {St : Type} `{IStrategy St}.

(** One tick against one chain: the release pass credits what is due and
    keeps the rest, the second loop pushes entries and takes amounts. *)
Lemma tick_account (tickCounter : N) (sim : Simulation St) (j : nat) (c : Chain) :
  m_chains sim !! j = Some c ->
  exists shown c' pushed debits,
    snapshot tickCounter (m_chains sim) !! j = Some shown /\
    shown = (tickChain tickCounter c).1 /\
    m_chains (tick tickCounter sim).1 !! j = Some c' /\
    chainName c' = chainName c /\
    lockedBalances c' = agedLedger (lockedBalances c) ++ pushed /\
    balance c' = debitAll (balance shown) debits /\
    debits `sublist_of` debitsOf (chainName c) (proposed tickCounter sim).
Proof.
  intros Hj.
  assert (Hshown : snapshot tickCounter (m_chains sim) !! j
                   = Some (tickChain tickCounter c).1).
  { now rewrite snapshot_lookup, Hj. }
  rewrite tick_snapshot. unfold proposed. cbn zeta.
  destruct (onTickRecalc _ _) as [st actions]. cbn [m_chains snd].
  destruct (execActions_balance tickCounter _ actions j _ Hshown)
    as (c' & pushed & debits & Hj' & Hn & Hl & Hb & Hs).
  rewrite tickChain_name in Hn, Hs.
  exists (tickChain tickCounter c).1, c', pushed, debits.
  repeat split; try done.
  rewrite Hl. now rewrite tickChain_spec.
Qed.

(** The tick in which an accepted action pushes its settlement: the entry
    goes behind the destination's ledger, the destination's balance is
    not touched by the action, and the actions after it can only take
    their amounts from that balance. *)
Lemma enqueue_account (t : N) (sim : Simulation St) (before rest : Actions)
    (action : Action) (chains : Chains) (s d : nat) (src dst : Chain) :
  proposed t sim = before ++ action :: rest ->
  (execActions t (snapshot t (m_chains sim)) before).1 = chains ->
  String.eqb (source action) (destination action) = false ->
  findChains chains 0 (source action) (destination action) None None
    = (Some s, Some d) ->
  chains !! s = Some src -> chains !! d = Some dst ->
  (balance src <? amount action)%float = false ->
  (destinationPool (type action) dst <? amount action)%float = false ->
  (amount action <? gasCost (params src))%float = false ->
  (exists dst',
     (execAction t chains action).1 !! d = Some dst' /\
     chainName dst' = chainName dst /\
     lockedBalances dst' = lockedBalances dst ++ [settlementOf action src] /\
     balance dst' = balance dst) /\
  (exists c post debits,
     m_chains (tick t sim).1 !! d = Some c /\
     chainName c = chainName dst /\
     lockedBalances c = lockedBalances dst ++ settlementOf action src :: post /\
     balance c = debitAll (balance dst) debits /\
     debits `sublist_of` debitsOf (chainName dst) rest).
Proof.
  intros Hprop Hchains Hsame Hf Hs Hd H1 H2 H3.
  destruct (findChains_resolved _ _ _ _ _ Hf) as (Hne & _).
  pose proof (lookup_lt_Some _ _ _ Hd) as Hld.
  assert (Hq : exists dst',
     (execAction t chains action).1 !! d = Some dst' /\
     chainName dst' = chainName dst /\
     lockedBalances dst' = lockedBalances dst ++ [settlementOf action src] /\
     balance dst' = balance dst).
  { unfold settlementOf.
    destruct (type action) eqn:Hty; cbn [destinationPool] in H2.
    - rewrite (execAction_bridge t chains action s d src dst) by done.
      cbn [fst]. rewrite list_lookup_insert_eq by now rewrite length_insert.
      eexists. split; [done|]. done.
    - rewrite (execAction_execute t chains action s d src dst) by done.
      cbn [fst]. rewrite list_lookup_insert_eq by now rewrite length_insert.
      eexists. split; [done|]. done. }
  split; [exact Hq|].
  destruct Hq as (dst' & Hd' & Hn' & Hl' & Hb').
  rewrite tick_snapshot. unfold proposed in Hprop. cbn zeta.
  destruct (onTickRecalc _ _) as [st actions]. cbn [snd] in Hprop. subst actions.
  cbn [m_chains]. rewrite execActions_app.
  destruct (execActions t (snapshot t (m_chains sim)) before) as [chains0 o0].
  cbn [fst] in Hchains. subst chains0.
  cbn [execActions].
  destruct (execAction t chains action) as [chains1 o1]. cbn [fst] in Hd'.
  destruct (execActions_balance t chains1 rest d dst' Hd')
    as (c & post & debits & Hc & Hn & Hl & Hb & Hsub).
  destruct (execActions t chains1 rest) as [chains2 o2]. cbn [fst] in *.
  exists c, post, debits. split; [done|]. split; [congruence|].
  split; [now rewrite Hl, Hl', <- app_assoc|].
  split; [now rewrite Hb, Hb'|]. now rewrite <- Hn'.
Qed.

(** A tick in which the entry waits: it is one lower behind what is left
    of the entries in front of it, and the balance is credited with the
    amounts of the other entries that are due, before the second loop
    takes amounts from it. *)
Lemma entry_waits_account (k : nat) (t : N) (sim : Simulation St) (j : nat)
    (c0 : Chain) (pre post0 : LockedAmounts) (a : Amount) (n : Ticks) :
  m_chains sim !! j = Some c0 ->
  lockedBalances c0 = pre ++ (a, n) :: post0 ->
  (N.of_nat (S k) < n)%N ->
  exists c post c' post' debits,
    m_chains (ticksFrom k t sim).1 !! j = Some c /\
    lockedBalances c = agedTimes k pre ++ (a, (n - N.of_nat k)%N) :: post /\
    m_chains (ticksFrom (S k) t sim).1 !! j = Some c' /\
    lockedBalances c' =
      agedTimes (S k) pre ++ (a, (n - N.of_nat (S k))%N) :: post' /\
    (tickChain (t + N.of_nat k) c).2 =
      releaseLines (t + N.of_nat k) (chainName c0)
        (releasedAmounts (agedTimes k pre))
      ++ releaseLines (t + N.of_nat k) (chainName c0) (releasedAmounts post) /\
    balance c' =
      debitAll (creditAll (balance c)
                  (releasedAmounts (agedTimes k pre) ++ releasedAmounts post))
        debits /\
    debits `sublist_of`
      debitsOf (chainName c0) (proposed (t + N.of_nat k) (ticksFrom k t sim).1).
Proof.
  intros Hj Hl Hk.
  destruct (entry_countdown k t sim j c0 pre post0 a n Hj Hl ltac:(lia))
    as (c & post & Hc & Hlc & Hnc).
  destruct (tick_account (t + N.of_nat k) (ticksFrom k t sim).1 j c Hc)
    as (shown & c' & pushed & debits & _ & -> & Hc' & Hn' & Hl' & Hb' & Hs').
  destruct (tickChain_waiting (t + N.of_nat k) c _ _ _ _ Hlc ltac:(lia))
    as (Hl1 & Hb1 & He1).
  exists c, post, c', (agedLedger post ++ pushed), debits.
  split; [done|]. split; [done|].
  split; [now rewrite ticksFrom_last|].
  split.
  { rewrite Hl', Hlc, agedTimes_succ.
    destruct (ledger_waiting (agedTimes k pre) post a (n - N.of_nat k)%N
                ltac:(lia)) as [-> _].
    rewrite <- app_assoc. cbn [app]. do 3 f_equal. lia. }
  split; [now rewrite <- Hnc|].
  split; [now rewrite Hb', Hb1|]. now rewrite <- Hnc.
Qed.

(** The tick in which the entry is released, with the balance the tick
    ends on. *)
Lemma entry_release_account (k : nat) (t : N) (sim : Simulation St) (j : nat)
    (c0 : Chain) (pre post0 : LockedAmounts) (a : Amount) (n : Ticks) :
  m_chains sim !! j = Some c0 ->
  lockedBalances c0 = pre ++ (a, n) :: post0 ->
  N.of_nat (S k) = N.max n 1 ->
  exists c post shown c' pushed debits,
    m_chains (ticksFrom k t sim).1 !! j = Some c /\
    lockedBalances c = agedTimes k pre ++ (a, (n - N.of_nat k)%N) :: post /\
    snapshot (t + N.of_nat k) (m_chains (ticksFrom k t sim).1) !! j
      = Some shown /\
    lockedBalances shown = agedTimes (S k) pre ++ agedLedger post /\
    balance shown =
      creditAll (balance c)
        (releasedAmounts (agedTimes k pre) ++ a :: releasedAmounts post) /\
    (tickChain (t + N.of_nat k) c).2 =
      releaseLines (t + N.of_nat k) (chainName c0)
        (releasedAmounts (agedTimes k pre))
      ++ AmountNowAvailable (t + N.of_nat k) a (chainName c0)
      :: releaseLines (t + N.of_nat k) (chainName c0) (releasedAmounts post) /\
    m_chains (ticksFrom (S k) t sim).1 !! j = Some c' /\
    lockedBalances c' = agedTimes (S k) pre ++ agedLedger post ++ pushed /\
    balance c' = debitAll (balance shown) debits /\
    debits `sublist_of`
      debitsOf (chainName c0) (proposed (t + N.of_nat k) (ticksFrom k t sim).1).
Proof.
  intros Hj Hl Hk.
  destruct (entry_countdown k t sim j c0 pre post0 a n Hj Hl ltac:(lia))
    as (c & post & Hc & Hlc & Hnc).
  destruct (tick_account (t + N.of_nat k) (ticksFrom k t sim).1 j c Hc)
    as (shown & c' & pushed & debits & Hsh & -> & Hc' & Hn' & Hl' & Hb' & Hs').
  destruct (tickChain_due (t + N.of_nat k) c _ _ _ _ Hlc ltac:(lia))
    as (Hl1 & Hb1 & He1).
  exists c, post, (tickChain (t + N.of_nat k) c).1, c', pushed, debits.
  split; [done|]. split; [done|]. split; [done|].
  split; [now rewrite Hl1, agedTimes_succ|].
  split; [done|]. split; [now rewrite <- Hnc|].
  split; [now rewrite ticksFrom_last|].
  split.
  { rewrite Hl', Hlc, agedTimes_succ.
    destruct (ledger_due (agedTimes k pre) post a (n - N.of_nat k)%N
                ltac:(lia)) as [-> _].
    now rewrite <- app_assoc. }
  split; [done|]. now rewrite <- Hnc.
Qed.

End Accounts.

Lemma tick_caps {St : Type} `{IStrategy St} (t : N) (sim : Simulation St) :
  capsOf <$> m_chains (tick t sim).1 = capsOf <$> m_chains sim.
Proof.
  rewrite tick_snapshot. cbn zeta.
  destruct (onTickRecalc _ _) as [st actions]. cbn [m_chains].
  rewrite (allExtend_caps _ _ (execActions_extends _ _ _)).
  apply snapshot_caps.
Qed.

Lemma ticksFrom_caps {St : Type} `{IStrategy St} (k : nat) (t : N)
    (sim : Simulation St) :
  capsOf <$> m_chains (ticksFrom k t sim).1 = capsOf <$> m_chains sim.
Proof.
  revert t sim. induction k as [|k IH]; intros t sim; [done|].
  now rewrite ticksFrom_succ, IH, tick_caps.
Qed.

Lemma tick_counts_one_call {St : Type} `{IStrategy St} (t : N)
    (calls : nat) (st : St) (chains : Chains) :
  (m_strategy (tick t (mkSimulation (calls, st) chains)).1).1 = S calls.
Proof.
  rewrite tick_snapshot. cbn.
  now destruct (onTickRecalc st (snapshot t chains)).
Qed.

Lemma ticksFrom_counts_calls {St : Type} `{IStrategy St} (k : nat) (t : N)
    (sim : Simulation (nat * St)) :
  (m_strategy (ticksFrom k t sim).1).1 = (m_strategy sim).1 + k.
Proof.
  revert t sim. induction k as [|k IH]; intros t sim.
  - cbn. lia.
  - rewrite ticksFrom_succ, IH. destruct sim as [[calls st] chains].
    rewrite tick_counts_one_call. cbn. lia.
Qed.

Lemma idle_tick (t : N) (chains : Chains) :
  (tick t (mkSimulation ([] : list Actions) chains)).1
    = mkSimulation [] (snapshot t chains).
Proof. now rewrite tick_snapshot. Qed.

Lemma idle_ticks_lookup (k : nat) (t : N) (chains : Chains) (j : nat) :
  m_chains (ticksFrom k t (mkSimulation ([] : list Actions) chains)).1 !! j
    = idleChain k t <$> chains !! j.
Proof.
  revert t chains. induction k as [|k IH]; intros t chains.
  - cbn. now destruct (chains !! j).
  - rewrite ticksFrom_succ, idle_tick, IH, snapshot_lookup.
    now destruct (chains !! j).
Qed.

Lemma idleChain_ledger (k : nat) (t : N) (c : Chain) :
  lockedBalances (idleChain k t c) = agedTimes k (lockedBalances c) /\
  balance (idleChain k t c) = idleBalance k (balance c) (lockedBalances c).
Proof.
  revert t c. induction k as [|k IH]; intros t c; [done|].
  cbn [idleChain agedTimes idleBalance].
  destruct (IH (N.succ t) (tickChain t c).1) as [-> ->].
  now rewrite tickChain_spec.
Qed.

(** * The claims *)

(** ** Accepted bridge and execute actions *)

(** C1.  A bridge action that passes the same-chain, chain-resolution and
    solvency checks, with [destination.outflowBalance >= amount] and
    [amount >= source.params.gasCost], is accepted, and the chains after it
    differ from the chains before it in exactly this: the destination's
    outflow pool is lower by [amount] and its ledger has the new last entry
    [(amount - gasCost, bridgingTime)], both read from the source's
    parameters; the source's outflow pool is higher by the full [amount]
    and its [balance] lower by [amount].  Source and destination are two
    different elements of the vector; every other chain and every other
    member is as before. *)
Theorem bridge_acceptance_mutations (tickCounter : N) (chains : Chains)
    (action : Action) (s d : nat) (src dst : Chain) :
  type action = bridge ->
  String.eqb (source action) (destination action) = false ->
  findChains chains 0 (source action) (destination action) None None
    = (Some s, Some d) ->
  chains !! s = Some src -> chains !! d = Some dst ->
  (balance src <? amount action)%float = false ->
  (amount action <=? currentOutflowBal dst)%float = true ->
  (gasCost (params src) <=? amount action)%float = true ->
  s <> d /\
  execAction tickCounter chains action =
    (<[d := {| chainName := chainName dst;
               currentOrderflowBal := currentOrderflowBal dst;
               currentOutflowBal := (currentOutflowBal dst - amount action)%float;
               currentStrategyBal := currentStrategyBal dst;
               maxOrderflowBal := maxOrderflowBal dst;
               maxOutflowBal := maxOutflowBal dst;
               maxStrategyBal := maxStrategyBal dst;
               params := params dst;
               balance := balance dst;
               lockedBalances := lockedBalances dst ++
                 [((amount action - gasCost (params src))%float,
                   bridgingTime (params src))] |}]>
     (<[s := {| chainName := chainName src;
                currentOrderflowBal := currentOrderflowBal src;
                currentOutflowBal := (currentOutflowBal src + amount action)%float;
                currentStrategyBal := currentStrategyBal src;
                maxOrderflowBal := maxOrderflowBal src;
                maxOutflowBal := maxOutflowBal src;
                maxStrategyBal := maxStrategyBal src;
                params := params src;
                balance := (balance src - amount action)%float;
                lockedBalances := lockedBalances src |}]> chains),
     [Bridged tickCounter (chainName src) (chainName dst)
        (amount action - gasCost (params src))%float (bridgingTime (params src))]).
Proof.
  intros Hty Hsame Hfind Hs Hd Hbal Hpool Hgas.
  split; [apply (findChains_resolved _ _ _ _ _ Hfind)|].
  apply leb_ltb_false in Hpool, Hgas.
  now rewrite (execAction_bridge _ _ _ s d src dst).
Qed.

Lemma bridge_acceptance_mutations_witness :
  0 <> 1 /\
  execAction 0 initRoutes (mkAction bridge "A" "B" 2) =
    ([ {| chainName := "A"; currentOrderflowBal := 10; currentOutflowBal := 32;
          currentStrategyBal := 10; maxOrderflowBal := 15; maxOutflowBal := 45;
          maxStrategyBal := 15; params := params chainA; balance := 8;
          lockedBalances := [] |};
       {| chainName := "B"; currentOrderflowBal := 30; currentOutflowBal := 8;
          currentStrategyBal := 0; maxOrderflowBal := 45; maxOutflowBal := 15;
          maxStrategyBal := 0; params := params chainB; balance := 0;
          lockedBalances := [(1.9999%float, 4%N)] |};
       chainC ],
     [Bridged 0 "A" "B" 1.9999%float 4%N]).
Proof.
  apply (bridge_acceptance_mutations 0 initRoutes
           (mkAction bridge "A" "B" 2) 0 1 chainA chainB);
    reflexivity.
Defined.

(** C2.  An execute action that passes the same-chain, chain-resolution and
    solvency checks, with [destination.orderflowBalance >= amount] and
    [amount >= source.params.gasCost], is accepted, and the chains after it
    differ from the chains before it in exactly this: the destination's
    order-flow pool is lower by [amount] and its ledger has the new last
    entry [((amount - gasCost) * executionSurplus, inventoryLockTime)], all
    three read from the source's parameters; the source's [balance] is
    lower by [amount].  No outflow pool changes, and every other chain and
    member is as before. *)
Theorem execute_acceptance_mutations (tickCounter : N) (chains : Chains)
    (action : Action) (s d : nat) (src dst : Chain) :
  type action = execute ->
  String.eqb (source action) (destination action) = false ->
  findChains chains 0 (source action) (destination action) None None
    = (Some s, Some d) ->
  chains !! s = Some src -> chains !! d = Some dst ->
  (balance src <? amount action)%float = false ->
  (amount action <=? currentOrderflowBal dst)%float = true ->
  (gasCost (params src) <=? amount action)%float = true ->
  s <> d /\
  execAction tickCounter chains action =
    (<[d := {| chainName := chainName dst;
               currentOrderflowBal := (currentOrderflowBal dst - amount action)%float;
               currentOutflowBal := currentOutflowBal dst;
               currentStrategyBal := currentStrategyBal dst;
               maxOrderflowBal := maxOrderflowBal dst;
               maxOutflowBal := maxOutflowBal dst;
               maxStrategyBal := maxStrategyBal dst;
               params := params dst;
               balance := balance dst;
               lockedBalances := lockedBalances dst ++
                 [(((amount action - gasCost (params src))
                    * executionSurplus (params src))%float,
                   inventoryLockTime (params src))] |}]>
     (<[s := {| chainName := chainName src;
                currentOrderflowBal := currentOrderflowBal src;
                currentOutflowBal := currentOutflowBal src;
                currentStrategyBal := currentStrategyBal src;
                maxOrderflowBal := maxOrderflowBal src;
                maxOutflowBal := maxOutflowBal src;
                maxStrategyBal := maxStrategyBal src;
                params := params src;
                balance := (balance src - amount action)%float;
                lockedBalances := lockedBalances src |}]> chains),
     [Executed tickCounter (chainName src) (chainName dst)
        ((amount action - gasCost (params src))
         * executionSurplus (params src))%float
        (inventoryLockTime (params src))]).
Proof.
  intros Hty Hsame Hfind Hs Hd Hbal Hpool Hgas.
  split; [apply (findChains_resolved _ _ _ _ _ Hfind)|].
  apply leb_ltb_false in Hpool, Hgas.
  now rewrite (execAction_execute _ _ _ s d src dst).
Qed.

Lemma execute_acceptance_mutations_witness :
  0 <> 2 /\
  execAction 0 initRoutes (mkAction execute "A" "C" 5) =
    ([ {| chainName := "A"; currentOrderflowBal := 10; currentOutflowBal := 30;
          currentStrategyBal := 10; maxOrderflowBal := 15; maxOutflowBal := 45;
          maxStrategyBal := 15; params := params chainA; balance := 5;
          lockedBalances := [] |};
       chainB;
       {| chainName := "C"; currentOrderflowBal := 35; currentOutflowBal := 30;
          currentStrategyBal := 0; maxOrderflowBal := 60; maxOutflowBal := 45;
          maxStrategyBal := 0; params := params chainC; balance := 0;
          lockedBalances := [(((5 - 0.0001) * 1.0005)%float, 4%N)] |} ],
     [Executed 0 "A" "C" ((5 - 0.0001) * 1.0005)%float 4%N]).
Proof.
  apply (execute_acceptance_mutations 0 initRoutes
           (mkAction execute "A" "C" 5) 0 2 chainA chainC);
    reflexivity.
Defined.

(** ** The life of a locked settlement *)

(** C3, as amended.  In tick [t] the strategy proposes the actions
    [before ++ action :: rest]; [action] passes the five checks on the
    chains the actions [before] have left, and the settlement it pushes
    on its destination, chain [d], is [(a, n)] with [n >= 1].  Below,
    [pre] is the destination's ledger when the action is taken, and
    [run k] is the simulation after the [k] ticks [t], ..., [t + k - 1].
    (1) The action puts [(a, n)] behind [pre] and leaves the destination's
    [balance] as it is.  (2) At the end of tick [t] the entry is in place
    with countdown [n], and the balance is the one the action found less
    amounts of later actions of the tick that name the chain as their
    source: nothing is credited.  (3) In each of the ticks [t + 1], ...,
    [t + n - 1] the countdown goes down by one, the entry stays right
    behind what is left of [pre], and the balance is credited with the
    amounts of the due entries in front of it and behind it, not with
    [a], and the pass prints the lines of those entries only; then the
    second loop takes from the balance amounts of actions that name the
    chain as their source.  (4) Tick [t + n] finds
    the entry with countdown 1; its release pass removes it (the ledger
    the strategy is shown is what is left of the entries in front of it
    followed by what is left of those behind it), adds [a] to the balance
    once, between the amounts released in front of it and those released
    behind it, and prints one line for it; the tick ends with a ledger of
    the survivors and the entries pushed in that tick. *)
Theorem settlement_released_once_after_countdown
    {St : Type} `{IStrategy St} (sim : Simulation St) (t : N)
    (before rest : Actions) (action : Action) (chains : Chains) (s d : nat)
    (src dst : Chain) (a : Amount) (n : Ticks) :
  proposed t sim = before ++ action :: rest ->
  (execActions t (snapshot t (m_chains sim)) before).1 = chains ->
  String.eqb (source action) (destination action) = false ->
  findChains chains 0 (source action) (destination action) None None
    = (Some s, Some d) ->
  chains !! s = Some src -> chains !! d = Some dst ->
  (balance src <? amount action)%float = false ->
  (destinationPool (type action) dst <? amount action)%float = false ->
  (amount action <? gasCost (params src))%float = false ->
  settlementOf action src = (a, n) ->
  (1 <= n)%N ->
  let pre := lockedBalances dst in
  let run k := (ticksFrom k t sim).1 in
  (exists dst',
     (execAction t chains action).1 !! d = Some dst' /\
     lockedBalances dst' = pre ++ [(a, n)] /\
     balance dst' = balance dst) /\
  (exists c post debits,
     m_chains (run 1) !! d = Some c /\
     lockedBalances c = pre ++ (a, n) :: post /\
     balance c = debitAll (balance dst) debits /\
     debits `sublist_of` debitsOf (chainName dst) rest) /\
  (forall k : nat, (N.of_nat (S k) < n)%N ->
     exists c post c' post' debits,
       m_chains (run (S k)) !! d = Some c /\
       lockedBalances c = agedTimes k pre ++ (a, (n - N.of_nat k)%N) :: post /\
       m_chains (run (S (S k))) !! d = Some c' /\
       lockedBalances c' =
         agedTimes (S k) pre ++ (a, (n - N.of_nat (S k))%N) :: post' /\
       (tickChain (t + N.of_nat (S k)) c).2 =
         releaseLines (t + N.of_nat (S k)) (chainName dst)
           (releasedAmounts (agedTimes k pre))
         ++ releaseLines (t + N.of_nat (S k)) (chainName dst)
              (releasedAmounts post) /\
       balance c' =
         debitAll
           (creditAll (balance c)
              (releasedAmounts (agedTimes k pre) ++ releasedAmounts post))
           debits /\
       debits `sublist_of`
         debitsOf (chainName dst) (proposed (t + N.of_nat (S k)) (run (S k)))) /\
  (let m := N.to_nat n in
   exists c post shown c' pushed debits,
     m_chains (run m) !! d = Some c /\
     lockedBalances c = agedTimes (m - 1) pre ++ (a, 1%N) :: post /\
     snapshot (t + n) (m_chains (run m)) !! d = Some shown /\
     lockedBalances shown = agedTimes m pre ++ agedLedger post /\
     balance shown =
       creditAll (balance c)
         (releasedAmounts (agedTimes (m - 1) pre) ++ a :: releasedAmounts post) /\
     (tickChain (t + n) c).2 =
       releaseLines (t + n) (chainName dst)
         (releasedAmounts (agedTimes (m - 1) pre))
       ++ AmountNowAvailable (t + n) a (chainName dst)
       :: releaseLines (t + n) (chainName dst) (releasedAmounts post) /\
     m_chains (run (S m)) !! d = Some c' /\
     lockedBalances c' = agedTimes m pre ++ agedLedger post ++ pushed /\
     balance c' = debitAll (balance shown) debits /\
     debits `sublist_of` debitsOf (chainName dst) (proposed (t + n) (run m))).
Proof.
  intros Hprop Hchains Hsame Hf Hs Hd H1 H2 H3 Hset Hn pre run.
  destruct (enqueue_account t sim before rest action chains s d src dst
              Hprop Hchains Hsame Hf Hs Hd H1 H2 H3)
    as ((dst' & Hd' & _ & Hl' & Hb') & (c0 & post0 & debits0 & Hc0 & Hn0 & Hl0
        & Hb0 & Hs0)).
  rewrite Hset in Hl', Hl0.
  assert (Hrun : forall k, run (S k) = (ticksFrom k (N.succ t) (tick t sim).1).1).
  { intros k. unfold run. apply ticksFrom_succ. }
  split; [eauto|]. split.
  { exists c0, post0, debits0. rewrite Hrun. done. }
  split.
  - intros k Hk.
    destruct (entry_waits_account k (N.succ t) (tick t sim).1 d c0 pre post0 a n
                Hc0 Hl0 Hk)
      as (c & post & c' & post' & debits & Hc & Hl & Hc' & Hlc' & Hlines & Hb
          & Hsub).
    exists c, post, c', post', debits. rewrite !Hrun.
    replace (t + N.of_nat (S k))%N with (N.succ t + N.of_nat k)%N by lia.
    rewrite <- Hn0. done.
  - cbn zeta.
    destruct (entry_release_account (N.to_nat n - 1) (N.succ t) (tick t sim).1
                d c0 pre post0 a n Hc0 Hl0 ltac:(lia))
      as (c & post & shown & c' & pushed & debits & Hc & Hl & Hsh & Hlsh & Hbsh
          & Hlines & Hc' & Hlc' & Hb & Hsub).
    replace (S (N.to_nat n - 1)) with (N.to_nat n) in * by lia.
    replace (N.succ t + N.of_nat (N.to_nat n - 1))%N with (t + n)%N in * by lia.
    replace (n - N.of_nat (N.to_nat n - 1))%N with 1%N in Hl by lia.
    rewrite Hn0 in Hlines, Hsub.
    exists c, post, shown, c', pushed, debits.
    replace (run (N.to_nat n)) with
      (ticksFrom (N.to_nat n - 1) (N.succ t) (tick t sim).1).1.
    2:{ rewrite <- Hrun. f_equal. lia. }
    rewrite Hrun. done.
Qed.

Lemma settlement_released_once_after_countdown_witness :
  exists dst',
    (execAction 0 (snapshot 0 initRoutes) (mkAction bridge "A" "B" 2)).1 !! 1
      = Some dst' /\
    lockedBalances dst' = [] ++ [(1.9999%float, 4%N)] /\
    balance dst' = 0%float.
Proof.
  refine (proj1 (settlement_released_once_after_countdown (Simulation_new tt) 0
            [] [] (mkAction bridge "A" "B" 2) (snapshot 0 initRoutes) 0 1
            (default chainA (snapshot 0 initRoutes !! 0))
            (default chainB (snapshot 0 initRoutes !! 1))
            1.9999%float 4%N _ _ _ _ _ _ _ _ _ _ _)).
  all: try reflexivity.
  lia.
Defined.

(** The statement of C3 fails at a countdown of zero.  Chain A is given a
    bridging time of 0 and bridges 2 to B in tick 0.  At the end of tick 0,
    the tick [t + n] of that settlement, the entry is still in B's ledger
    and B's [balance] is still 0; tick 0 prints no release.  The entry is
    released by the pass of tick 1. *)
Lemma zero_countdown_released_next_tick :
  let script := [[mkAction bridge "A" "B" 2]] in
  let run0 := tick 0 (mkSimulation script instantBridgeChains) in
  let run1 := tick 1 run0.1 in
  run0.2 = [TickBanner 0; Bridged 0 "A" "B" 1.9999%float 0%N] /\
  (lockedBalances <$> m_chains run0.1 !! 1) = Some [(1.9999%float, 0%N)] /\
  (balance <$> m_chains run0.1 !! 1) = Some 0%float /\
  run1.2 = [AmountNowAvailable 1 1.9999%float "B"] /\
  (lockedBalances <$> m_chains run1.1 !! 1) = Some [] /\
  (balance <$> m_chains run1.1 !! 1) = Some 1.9999%float.
Proof. vm_compute. repeat split. Qed.

(** ** The caps of the pools *)

(** The statement of C4 fails in the program's own run.  At tick 13 of
    [main] the placeholder strategy bridges 2 from A to B while A's outflow
    pool stands at 43.36 after regeneration; the tick ends with the pool at
    45.36, above A's maximum of 45 = 30 * 1.5, and the run of a thousand
    ticks ends with the pool at 47.  One tick is enough when the pool
    starts low: with an initial outflow pool of 1, hence a maximum of 1.5,
    chain A regenerates to 1.24 and its bridge of 5 to B leaves the pool at
    6.24. *)
Lemma main_outflow_above_cap_after_tick_13 :
  let chains := m_chains (ticksFrom 14 0 (Simulation_new tt)).1 in
  let short := tick 0 (mkSimulation [[mkAction bridge "A" "B" 5]]
                         shallowPoolChains) in
  (maxOutflowBal <$> chains !! 0 = Some (30 * 1.5)%float /\
   currentOutflowBal <$> chains !! 0 = Some 45.360000000000021%float /\
   (fun c => (maxOutflowBal c <? currentOutflowBal c)%float) <$> chains !! 0
     = Some true) /\
  (fun c => (currentOutflowBal c, maxOutflowBal c,
             (maxOutflowBal c <? currentOutflowBal c)%float))
    <$> m_chains main.1 !! 0 = Some (47%float, 45%float, true) /\
  (fun c => (currentOutflowBal c, maxOutflowBal c,
             (maxOutflowBal c <? currentOutflowBal c)%float))
    <$> m_chains short.1 !! 0 = Some ((1 + 0.24 + 5)%float, 1.5%float, true).
Proof. vm_compute. repeat split. Qed.

(** C4, as amended.  In every tick [k] of every run, under any strategy
    and whatever the regeneration rates and the actions of the earlier
    ticks, the chains the strategy is shown, which are the chains right
    after that tick's regeneration, have both pools at or below their
    maxima; the maxima are those the run started with, which the
    constructor sets to 1.5 times the initial pool values. *)
Theorem pools_within_caps_when_observed {St : Type} `{IStrategy St}
    (sim : Simulation St) (k : nat) :
  let shown := snapshot (N.of_nat k) (m_chains (ticksFrom k 0 sim).1) in
  Forall withinCaps shown /\
  capsOf <$> shown = capsOf <$> m_chains sim /\
  (forall name rp initialOrderflowBal initialOutflowBal startingStrategyBal,
     capsOf (Chain_new name rp initialOrderflowBal initialOutflowBal
               startingStrategyBal)
     = ((initialOrderflowBal * 1.5)%float, (initialOutflowBal * 1.5)%float)).
Proof.
  cbn zeta. split; [apply snapshot_withinCaps|]. split; [|done].
  now rewrite snapshot_caps, ticksFrom_caps.
Qed.

(** ** Rejected actions *)

(** C5.  An action whose first failing check, in the order same-chain,
    chain-resolution, source-solvency, destination-liquidity, gas-coverage,
    is [check] is discarded with the line of that check and leaves the
    vector of chains as it was; the lines of different checks differ; the
    rest of the tick's actions are then processed on the unchanged chains;
    and replaying the action any number of times prints the same line each
    time and still leaves the chains as they were. *)
Theorem rejection_is_local_and_idempotent (tickCounter : N) (chains : Chains)
    (action : Action) (check : Check) :
  firstFailingCheck chains action = Some check ->
  execAction tickCounter chains action =
    (chains, [reason (type action) check tickCounter]) /\
  (forall other : Check,
     reason (type action) other tickCounter
       = reason (type action) check tickCounter -> other = check) /\
  (forall rest : Actions,
     execActions tickCounter chains (action :: rest) =
       ((execActions tickCounter chains rest).1,
        reason (type action) check tickCounter
          :: (execActions tickCounter chains rest).2)) /\
  (forall n : nat,
     execActions tickCounter chains (replicate n action) =
       (chains, replicate n (reason (type action) check tickCounter))).
Proof.
  intros Hcheck.
  pose proof (execAction_rejected tickCounter _ _ _ Hcheck) as Hrej.
  split; [exact Hrej|]. split; [|split].
  - intros other. destruct other, check, (type action); simpl; congruence.
  - intros rest. simpl. rewrite Hrej.
    now destruct (execActions tickCounter chains rest).
  - induction n as [|n IH]; simpl; [done|].
    rewrite Hrej, IH. done.
Qed.

Lemma rejection_is_local_and_idempotent_witness :
  let action := mkAction bridge "B" "A" 1 in
  execAction 7 initRoutes action = (initRoutes, [InsufficientFunds 7]) /\
  (forall other : Check,
     reason bridge other 7 = InsufficientFunds 7 -> other = SourceSolvency) /\
  (forall rest : Actions,
     execActions 7 initRoutes (action :: rest) =
       ((execActions 7 initRoutes rest).1,
        InsufficientFunds 7 :: (execActions 7 initRoutes rest).2)) /\
  (forall n : nat,
     execActions 7 initRoutes (replicate n action) =
       (initRoutes, replicate n (InsufficientFunds 7))).
Proof.
  apply (rejection_is_local_and_idempotent 7 initRoutes
           (mkAction bridge "B" "A" 1) SourceSolvency).
  reflexivity.
Defined.

(** ** The order of the phases and of the actions *)

(** C6.  (1) [tick] is the tick in four phases: regeneration of every
    chain, then aging and release for every chain, then one invocation of
    the strategy, then the execution of its actions.  (2) A strategy that
    counts its calls has been called exactly [k] times after [k] ticks.
    (3) The chains shown to the strategy have, chain by chain, the amounts
    released in this tick already added to [balance] and the released
    entries removed, and the actions are validated and executed on
    exactly those chains.  (4) In the run of [main], chain B holds 3.9998
    before tick 6, less than the 5 it is to spend; tick 6 releases 1.9999
    on B and in the same tick accepts the execute of 5 from B. *)
Theorem tick_phases_in_order :
  (forall (St : Type) (strategy : IStrategy St) (t : N) (sim : Simulation St),
     tick t sim = tickByPhases t sim) /\
  (forall (St : Type) (strategy : IStrategy St) (k : nat) (t : N) (st : St)
          (chains : Chains),
     (m_strategy (ticksFrom k t (mkSimulation (0, st) chains)).1).1 = k) /\
  (forall (St : Type) (strategy : IStrategy St) (t : N) (sim : Simulation St),
     let shown := snapshot t (m_chains sim) in
     (forall j c, m_chains sim !! j = Some c ->
        exists c', shown !! j = Some c' /\
          balance c' =
            creditAll (balance c) (releasedAmounts (lockedBalances c)) /\
          lockedBalances c' = agedLedger (lockedBalances c)) /\
     (tick t sim).1 =
       mkSimulation (onTickRecalc (m_strategy sim) shown).1
         (execActions t shown (onTickRecalc (m_strategy sim) shown).2).1) /\
  (let before := (ticksFrom 6 0 (Simulation_new tt)).1 in
   balance <$> m_chains before !! 1 = Some 3.9998%float /\
   (3.9998 <? 5)%float = true /\
   (tick 6 before).2 =
     [AmountNowAvailable 6 1.9999%float "B";
      Executed 6 "B" "A" ((5 - 0.0005) * 1.0003)%float 6%N]).
Proof.
  split; [|split; [|split]].
  - intros St strategy t sim. unfold tick, tickByPhases.
    rewrite tickChains_spec.
    rewrite !map_map.
    replace (map (fun x => (ageAndRelease t (regenerate x)).1) (m_chains sim))
      with (map (fun c => (tickChain t c).1) (m_chains sim)) by done.
    replace (map (fun x => (ageAndRelease t (regenerate x)).2) (m_chains sim))
      with (map (fun c => (tickChain t c).2) (m_chains sim)) by done.
    reflexivity.
  - intros St strategy k t st chains.
    now rewrite ticksFrom_counts_calls.
  - intros St strategy t sim. cbn zeta. split.
    + intros j c Hj. exists (tickChain t c).1.
      split; [now rewrite snapshot_lookup, Hj|].
      rewrite tickChain_spec. split; reflexivity.
    + rewrite tick_snapshot. cbn zeta.
      now destruct (onTickRecalc (m_strategy sim) (snapshot t (m_chains sim))).
  - vm_compute. repeat split.
Qed.

(** C7.  (1) Wherever an action stands in the tick's list, it is validated
    and executed on the chains as the actions before it left them, and the
    actions after it run on the chains as it leaves them.  (2) On the
    chains of [initRoutes] a bridge of 6 from A to C is accepted when it
    comes first, and rejected for insufficient funds when it comes after a
    bridge of 6 from A to B, which has taken A's balance from 10 to 4.
    (3) With A's outflow pool at 1, a bridge of 4 from B to A is rejected
    for lack of destination liquidity when it comes first, and accepted
    when it comes after a bridge of 5 from A to B, which has raised A's
    pool to 6. *)
Theorem later_action_sees_earlier_mutations :
  (forall (t : N) (chains : Chains) (earlier : Actions) (action : Action)
          (later : Actions),
     execActions t chains (earlier ++ action :: later) =
       let '(chains1, out1) := execActions t chains earlier in
       let '(chains2, out2) := execAction t chains1 action in
       let '(chains3, out3) := execActions t chains2 later in
       (chains3, out1 ++ out2 ++ out3)) /\
  ((execActions 0 initRoutes [mkAction bridge "A" "C" 6]).2
     = [Bridged 0 "A" "C" (6 - 0.0001)%float 4%N] /\
   (execActions 0 initRoutes
      [mkAction bridge "A" "B" 6; mkAction bridge "A" "C" 6]).2
     = [Bridged 0 "A" "B" (6 - 0.0001)%float 4%N; InsufficientFunds 0]) /\
  ((execActions 0 shallowPoolChains [mkAction bridge "B" "A" 4]).2
     = [InsufficientBridgeDestination 0] /\
   (execActions 0 shallowPoolChains
      [mkAction bridge "A" "B" 5; mkAction bridge "B" "A" 4]).2
     = [Bridged 0 "A" "B" (5 - 0.0001)%float 4%N;
        Bridged 0 "B" "A" (4 - 0.0005)%float 6%N]).
Proof.
  split; [|split].
  - intros t chains earlier action later.
    rewrite execActions_app. cbn [execActions].
    destruct (execActions t chains earlier) as [c1 o1].
    destruct (execAction t c1 action) as [c2 o2].
    now destruct (execActions t c2 later) as [c3 o3].
  - vm_compute. split; reflexivity.
  - vm_compute. split; reflexivity.
Qed.

(** ** The simple bridge scenario *)

(** C8.  Chain A with a [balance] of 10, a gas cost of 0.0001 and a
    bridging time of 4, chain B with an outflow pool of 30: the bridge of 2
    from A to B is accepted; A's [balance] is then 8 and B's ledger has the
    new last entry [(1.9999, 4)].  Whatever the strategy does in the
    further ticks, three ticks later the entry is in B's ledger with
    countdown 1, and the pass of the fourth further tick removes it and
    adds 1.9999 to B's [balance], once.  After four further ticks without
    actions, B's ledger is what its ledger from before the bridge has
    become after four passes, so the entry is gone, and B's [balance] is
    what the old ledger alone would have made it, plus 1.9999; with no
    older entry pending on B, that is B's [balance] from before the bridge
    plus 1.9999, and an empty ledger. *)
Theorem simple_bridge_scenario (t : N) (chains : Chains) (s d : nat)
    (A B : Chain) :
  findChains chains 0 "A" "B" None None = (Some s, Some d) ->
  chains !! s = Some A -> chains !! d = Some B ->
  balance A = 10%float ->
  gasCost (params A) = 0.0001%float ->
  bridgingTime (params A) = 4%N ->
  currentOutflowBal B = 30%float ->
  let after := execAction t chains (mkAction bridge "A" "B" 2) in
  let later :=
    m_chains (ticksFrom 4 (N.succ t)
                (mkSimulation ([] : list Actions) after.1)).1 in
  after.2 = [Bridged t "A" "B" 1.9999%float 4%N] /\
  balance <$> after.1 !! s = Some 8%float /\
  lockedBalances <$> after.1 !! d
    = Some (lockedBalances B ++ [(1.9999%float, 4%N)]) /\
  (forall (St : Type) (strategy : IStrategy St) (st : St),
     let before := (ticksFrom 3 (N.succ t) (mkSimulation st after.1)).1 in
     exists B3 post shown,
       m_chains before !! d = Some B3 /\
       lockedBalances B3 =
         agedTimes 3 (lockedBalances B) ++ (1.9999%float, 1%N) :: post /\
       snapshot (t + 4) (m_chains before) !! d = Some shown /\
       lockedBalances shown = agedTimes 4 (lockedBalances B) ++ agedLedger post /\
       balance shown =
         creditAll (balance B3)
           (releasedAmounts (agedTimes 3 (lockedBalances B))
            ++ 1.9999%float :: releasedAmounts post)) /\
  lockedBalances <$> later !! d = Some (agedTimes 4 (lockedBalances B)) /\
  balance <$> later !! d
    = Some (idleBalance 4 (balance B) (lockedBalances B) + 1.9999)%float /\
  (lockedBalances B = [] ->
   lockedBalances <$> later !! d = Some [] /\
   balance <$> later !! d = Some (balance B + 1.9999)%float).
Proof.
  intros Hfind Hs Hd Hbal Hgas Htime Hpool after later.
  destruct (findChains_resolved _ _ _ _ _ Hfind)
    as (Hne & (A' & HA' & HnA) & (B' & HB' & HnB)).
  assert (A' = A) as -> by congruence. assert (B' = B) as -> by congruence.
  pose proof (lookup_lt_Some _ _ _ Hs) as Hls.
  pose proof (lookup_lt_Some _ _ _ Hd) as Hld.
  assert (Hafter : after =
    (<[d := push_back (1.9999%float, 4%N) (set_currentOutflowBal 28 B)]>
       (<[s := set_balance 8 (set_currentOutflowBal
                 (currentOutflowBal A + 2)%float A)]> chains),
     [Bridged t "A" "B" 1.9999%float 4%N])).
  { unfold after.
    rewrite (execAction_bridge t chains (mkAction bridge "A" "B" 2) s d A B);
      cbn [type source destination amount]; try done.
    - now rewrite Hbal, Hgas, Htime, Hpool, HnA, HnB.
    - now rewrite Hbal.
    - now rewrite Hpool.
    - now rewrite Hgas. }
  assert (Hlater : later !! d =
    Some (idleChain 4 (N.succ t)
            (push_back (1.9999%float, 4%N) (set_currentOutflowBal 28 B)))).
  { unfold later. rewrite idle_ticks_lookup, Hafter. cbn [fst].
    rewrite list_lookup_insert_eq by now rewrite length_insert. done. }
  destruct (idleChain_ledger 4 (N.succ t)
              (push_back (1.9999%float, 4%N) (set_currentOutflowBal 28 B)))
    as [Hl4 Hb4].
  cbn [push_back set_lockedBalances set_currentOutflowBal lockedBalances
       balance] in Hl4, Hb4.
  destruct (four_passes_last_entry (lockedBalances B) 1.9999%float (balance B))
    as [Ha4 Hi4].
  rewrite Ha4 in Hl4. rewrite Hi4 in Hb4.
  rewrite Hafter. cbn [fst snd]. split; [done|]. split.
  { rewrite list_lookup_insert_ne by done.
    now rewrite list_lookup_insert_eq. }
  split.
  { rewrite list_lookup_insert_eq by now rewrite length_insert. done. }
  split.
  { intros St strategy st.
    pose proof (entry_release t
      (mkSimulation st
         (<[d := push_back (1.9999%float, 4%N) (set_currentOutflowBal 28 B)]>
            (<[s := set_balance 8 (set_currentOutflowBal
                      (currentOutflowBal A + 2)%float A)]> chains)))
      d (push_back (1.9999%float, 4%N) (set_currentOutflowBal 28 B))
      (lockedBalances B) [] 1.9999%float 4%N) as Hrel.
    cbn [m_chains] in Hrel.
    rewrite list_lookup_insert_eq in Hrel by now rewrite length_insert.
    destruct (Hrel eq_refl eq_refl)
      as (B3 & post & shown & H1 & H2 & H3 & H4 & H5 & _).
    exists B3, post, shown. done. }
  rewrite Hlater. cbn [fmap option_fmap option_map]. rewrite Hl4, Hb4.
  split; [done|]. split; [done|].
  intros ->. done.
Qed.

Lemma simple_bridge_scenario_witness :
  let after := execAction 0 scenarioChains (mkAction bridge "A" "B" 2) in
  let later :=
    m_chains (ticksFrom 4 1 (mkSimulation ([] : list Actions) after.1)).1 in
  after.2 = [Bridged 0 "A" "B" 1.9999%float 4%N] /\
  balance <$> after.1 !! 0 = Some 8%float /\
  lockedBalances <$> after.1 !! 1 = Some [(1.9999%float, 4%N)] /\
  lockedBalances <$> later !! 1 = Some [] /\
  balance <$> later !! 1 = Some 1.9999%float.
Proof.
  destruct (simple_bridge_scenario 0 scenarioChains 0 1 chainA
              (Chain_new "B" (mkChainParams 0.38 0.4 0.0005 1.0003 6 6) 30 30 0)
              eq_refl eq_refl eq_refl eq_refl eq_refl eq_refl eq_refl)
    as (H1 & H2 & H3 & _ & H4 & H5 & _).
  repeat split; assumption.
Defined.


(** ** Pools above their caps, and countdowns of zero *)

(** The statement of C9 fails on the chains of [initRoutes] when the
    strategy proposes an amount that is a NaN.  No check stops a NaN, so
    the bridge from A to B of tick 0 is accepted and leaves A's outflow
    pool a NaN; the regeneration of tick 1 keeps it a NaN, and that is
    what the strategy is shown: a pool that is neither above its maximum
    of 45 nor at or below it. *)
Lemma nan_bridge_shows_pool_not_at_or_below_cap :
  let run0 := tick 0 (mkSimulation [[mkAction bridge "A" "B" nan]] initRoutes) in
  run0.2 = [TickBanner 0; Bridged 0 "A" "B" nan 4%N] /\
  (fun c => (currentOutflowBal c, maxOutflowBal c,
             (maxOutflowBal c <? currentOutflowBal c)%float,
             (currentOutflowBal c <=? maxOutflowBal c)%float))
    <$> snapshot 1 (m_chains run0.1) !! 0 = Some (nan, 45%float, false, false).
Proof. vm_compute. repeat split. Qed.

(** Why part (3) of C9 asks that adding the regeneration amount does not
    lower the pool: [ChainParams] takes any [double].  Here chain A's
    outflow pool has a maximum of 15 and a regeneration amount of -1.  In
    tick 0 the pool is regenerated to 9 and A bridges 6.5 to B, which
    leaves the pool at 15.5, above 15.  The regeneration of tick 1 takes
    it to 14.5: below the maximum, not at it. *)
Lemma decaying_pool_lands_below_cap :
  let run0 := tick 0 (mkSimulation [[mkAction bridge "A" "B" 6.5]]
                        decayingPoolChains) in
  run0.2 = [TickBanner 0; Bridged 0 "A" "B" (6.5 - 0.0001)%float 4%N] /\
  (fun c => (currentOutflowBal c, maxOutflowBal c,
             (maxOutflowBal c <? currentOutflowBal c)%float))
    <$> m_chains run0.1 !! 0 = Some (15.5%float, 15%float, true) /\
  (fun c => (currentOutflowBal c, maxOutflowBal c))
    <$> snapshot 1 (m_chains run0.1) !! 0 = Some (14.5%float, 15%float).
Proof. vm_compute. repeat split. Qed.

(** C9, as amended.  (1) An accepted bridge leaves the source's outflow
    pool at its value before the action plus the full amount: no minimum
    with the maximum is taken.  (2) So the pool can end a tick above its
    maximum, which is 1.5 times the initial value: in the program's own
    run, tick 13 ends with chain A's pool at 45.36 against a maximum of
    45 = 30 * 1.5.  (3) A pool that is above its maximum, and that adding
    the regeneration amount does not lower, is set to exactly the maximum
    by the next tick's regeneration; in the run of [main] the strategy is
    shown chain A with a pool of exactly 45 in tick 14.  (4) In every tick
    of every run, whatever the regeneration amounts, no chain the strategy
    is shown has a pool above its maximum, and every chain it is shown
    whose pools and maxima are not NaN has both pools at or below their
    maxima. *)
Theorem bridge_may_exceed_cap_until_next_regeneration :
  (forall (tickCounter : N) (chains : Chains) (action : Action) (s d : nat)
          (src dst : Chain),
     type action = bridge ->
     String.eqb (source action) (destination action) = false ->
     findChains chains 0 (source action) (destination action) None None
       = (Some s, Some d) ->
     chains !! s = Some src -> chains !! d = Some dst ->
     (balance src <? amount action)%float = false ->
     (currentOutflowBal dst <? amount action)%float = false ->
     (amount action <? gasCost (params src))%float = false ->
     currentOutflowBal <$> (execAction tickCounter chains action).1 !! s
       = Some (currentOutflowBal src + amount action)%float) /\
  (let after13 := (ticksFrom 14 0 (Simulation_new tt)).1 in
   (fun c => (chainName c, currentOutflowBal c, maxOutflowBal c,
              (maxOutflowBal c <? currentOutflowBal c)%float))
     <$> m_chains after13 !! 0
     = Some ("A"%string, 45.360000000000021%float, (30 * 1.5)%float, true) /\
   (fun c => (chainName c, currentOutflowBal c, maxOutflowBal c))
     <$> snapshot 14 (m_chains after13) !! 0
     = Some ("A"%string, 45%float, 45%float)) /\
  (forall (tickCounter : N) (c : Chain),
     (maxOutflowBal c <? currentOutflowBal c)%float = true ->
     (currentOutflowBal c
      <=? currentOutflowBal c + outflowRegenPerTick (params c))%float = true ->
     currentOutflowBal (tickChain tickCounter c).1 = maxOutflowBal c) /\
  (forall (St : Type) (strategy : IStrategy St) (sim : Simulation St) (k : nat),
     let shown := snapshot (N.of_nat k) (m_chains (ticksFrom k 0 sim).1) in
     Forall withinCaps shown /\
     Forall (fun c => poolsAreNumbers c -> atOrBelowCaps c) shown).
Proof.
  split; [|split; [|split]].
  - intros t chains action s d src dst Hty Hsame Hfind Hs Hd Hbal Hpool Hgas.
    destruct (findChains_resolved _ _ _ _ _ Hfind) as (Hne & _).
    rewrite (execAction_bridge t chains action s d src dst) by done.
    cbn [fst]. rewrite list_lookup_insert_ne by done.
    rewrite list_lookup_insert_eq by eauto using lookup_lt_Some. done.
  - vm_compute. split; reflexivity.
  - intros t c Habove Hregen. rewrite tickChain_spec.
    cbn [fst currentOutflowBal]. unfold fmin.
    now rewrite (ltb_leb_trans _ _ _ Habove Hregen).
  - intros St strategy sim k shown.
    pose proof (snapshot_withinCaps (N.of_nat k) (m_chains (ticksFrom k 0 sim).1))
      as Hw.
    split; [exact Hw|].
    eapply Forall_impl; [exact Hw|].
    intros c Hc Hn. now apply withinCaps_atOrBelowCaps.
Qed.

(** C10.  (1) The release pass cannot tell a countdown of 0 from a
    countdown of 1: it does the same to a ledger with [(a, 0)] as to the
    ledger with [(a, 1)] in its place.  (2) The second loop prints no
    release.  (3) In tick [t] the strategy proposes the actions
    [before ++ action :: rest]; [action] passes the five checks on the
    chains the actions [before] have left, and the settlement it pushes
    on its destination, chain [d], is [(a, n)], with any countdown [n].
    [pre] is the destination's ledger when the action is taken, and
    [run k] the simulation after the [k] ticks [t], ..., [t + k - 1].
    (3a) The action puts [(a, n)] behind [pre] and leaves the
    destination's [balance] as it is, and at the end of tick [t] the
    entry is in the ledger with its countdown [n], behind [pre], and the
    balance is the one the action found less amounts of later actions of
    the tick that name the chain as their source: the settlement is not
    credited in the tick of its enqueue, not even with a countdown of 0.
    (3b) In each of the ticks after [t] and before [t + max n 1] the
    countdown goes down by one, the entry stays in place, and the balance
    is credited with the amounts of the other due entries only.
    (3c) The release pass of tick [t + max n 1] removes the entry and adds
    [a] to the balance, once.  (4) With a bridging time of 0 as with a
    bridging time of 1, a bridge of 2 from A to B in tick 0 leaves B with
    a balance of 0 and the settlement pending at the end of tick 0, and
    with a balance of 1.9999 and an empty ledger at the end of tick 1. *)
Theorem zero_countdown_behaves_like_one :
  (forall (tickCounter : N) (name : string) (pre post : LockedAmounts)
          (a bal : Amount),
     releaseLocked tickCounter name (pre ++ (a, 0%N) :: post) bal
     = releaseLocked tickCounter name (pre ++ (a, 1%N) :: post) bal) /\
  (forall (tickCounter : N) (chains : Chains) (actions : Actions),
     Forall (fun e => isRelease e = false)
       (execActions tickCounter chains actions).2) /\
  (forall (St : Type) (strategy : IStrategy St) (sim : Simulation St) (t : N)
          (before rest : Actions) (action : Action) (chains : Chains)
          (s d : nat) (src dst : Chain) (a : Amount) (n : Ticks),
     proposed t sim = before ++ action :: rest ->
     (execActions t (snapshot t (m_chains sim)) before).1 = chains ->
     String.eqb (source action) (destination action) = false ->
     findChains chains 0 (source action) (destination action) None None
       = (Some s, Some d) ->
     chains !! s = Some src -> chains !! d = Some dst ->
     (balance src <? amount action)%float = false ->
     (destinationPool (type action) dst <? amount action)%float = false ->
     (amount action <? gasCost (params src))%float = false ->
     settlementOf action src = (a, n) ->
     let pre := lockedBalances dst in
     let run k := (ticksFrom k t sim).1 in
     let due := N.max n 1 in
     let m := N.to_nat due in
     (exists dst' c post debits,
        (execAction t chains action).1 !! d = Some dst' /\
        lockedBalances dst' = pre ++ [(a, n)] /\
        balance dst' = balance dst /\
        m_chains (tick t sim).1 !! d = Some c /\
        lockedBalances c = pre ++ (a, n) :: post /\
        balance c = debitAll (balance dst) debits /\
        debits `sublist_of` debitsOf (chainName dst) rest) /\
     (forall k : nat, (N.of_nat (S k) < due)%N ->
        exists c post c' post' debits,
          m_chains (run (S k)) !! d = Some c /\
          lockedBalances c =
            agedTimes k pre ++ (a, (n - N.of_nat k)%N) :: post /\
          m_chains (run (S (S k))) !! d = Some c' /\
          lockedBalances c' =
            agedTimes (S k) pre ++ (a, (n - N.of_nat (S k))%N) :: post' /\
          balance c' =
            debitAll
              (creditAll (balance c)
                 (releasedAmounts (agedTimes k pre) ++ releasedAmounts post))
              debits /\
          debits `sublist_of`
            debitsOf (chainName dst)
              (proposed (t + N.of_nat (S k)) (run (S k)))) /\
     (exists c post shown c' pushed debits,
        m_chains (run m) !! d = Some c /\
        lockedBalances c =
          agedTimes (m - 1) pre ++ (a, (n - N.of_nat (m - 1))%N) :: post /\
        snapshot (t + due) (m_chains (run m)) !! d = Some shown /\
        lockedBalances shown = agedTimes m pre ++ agedLedger post /\
        balance shown =
          creditAll (balance c)
            (releasedAmounts (agedTimes (m - 1) pre)
             ++ a :: releasedAmounts post) /\
        m_chains (run (S m)) !! d = Some c' /\
        lockedBalances c' = agedTimes m pre ++ agedLedger post ++ pushed /\
        balance c' = debitAll (balance shown) debits /\
        debits `sublist_of`
          debitsOf (chainName dst) (proposed (t + due) (run m)))) /\
  (forall chains : Chains,
     chains = instantBridgeChains \/ chains = oneTickBridgeChains ->
     let run0 := tick 0 (mkSimulation [[mkAction bridge "A" "B" 2]] chains) in
     let run1 := tick 1 run0.1 in
     (fun c => (balance c, fst <$> lockedBalances c)) <$> m_chains run0.1 !! 1
       = Some (0%float, [1.9999%float]) /\
     List.filter isRelease run0.2 = [] /\
     (fun c => (balance c, lockedBalances c)) <$> m_chains run1.1 !! 1
       = Some (1.9999%float, []) /\
     List.filter isRelease run1.2 = [AmountNowAvailable 1 1.9999%float "B"]).
Proof.
  split; [|split; [|split]].
  - intros t name pre post a bal. rewrite !releaseLocked_spec.
    destruct (ledger_due pre post a 0%N ltac:(lia)) as [H0 H0'].
    destruct (ledger_due pre post a 1%N ltac:(lia)) as [H1 H1'].
    now rewrite H0, H0', H1, H1'.
  - apply execActions_no_release.
  - intros St strategy sim t before rest action chains s d src dst a n
      Hprop Hchains Hsame Hf Hs Hd H1 H2 H3 Hset pre run due m.
    destruct (enqueue_account t sim before rest action chains s d src dst
                Hprop Hchains Hsame Hf Hs Hd H1 H2 H3)
      as ((dst' & Hd' & _ & Hl' & Hb') & (c0 & post0 & debits0 & Hc0 & Hn0 & Hl0
          & Hb0 & Hs0)).
    rewrite Hset in Hl', Hl0.
    assert (Hrun : forall k,
      run (S k) = (ticksFrom k (N.succ t) (tick t sim).1).1).
    { intros k. unfold run. apply ticksFrom_succ. }
    split; [exists dst', c0, post0, debits0; done|]. split.
    + intros k Hk.
      destruct (entry_waits_account k (N.succ t) (tick t sim).1 d c0 pre post0
                  a n Hc0 Hl0 ltac:(lia))
        as (c & post & c' & post' & debits & Hc & Hl & Hc' & Hlc' & _ & Hb
            & Hsub).
      exists c, post, c', post', debits. rewrite !Hrun.
      repeat (split; [done|]).
      rewrite <- Hn0.
      now replace (t + N.of_nat (S k))%N with (N.succ t + N.of_nat k)%N by lia.
    + destruct (entry_release_account (m - 1) (N.succ t) (tick t sim).1
                  d c0 pre post0 a n Hc0 Hl0 ltac:(lia))
        as (c & post & shown & c' & pushed & debits & Hc & Hl & Hsh & Hlsh
            & Hbsh & _ & Hc' & Hlc' & Hb & Hsub).
      replace (S (m - 1)) with m in * by lia.
      replace (N.succ t + N.of_nat (m - 1))%N with (t + due)%N in * by lia.
      rewrite Hn0 in Hsub.
      exists c, post, shown, c', pushed, debits.
      replace (run m) with (ticksFrom (m - 1) (N.succ t) (tick t sim).1).1.
      2:{ rewrite <- Hrun. f_equal. lia. }
      rewrite Hrun. done.
  - intros chains [-> | ->]; vm_compute; repeat split.
Qed.

Lemma zero_countdown_behaves_like_one_witness :
  let script := [[mkAction bridge "A" "B" 2]] in
  let shown := snapshot 0 instantBridgeChains in
  exists dst' c post debits,
    (execAction 0 shown (mkAction bridge "A" "B" 2)).1 !! 1 = Some dst' /\
    lockedBalances dst' = [] ++ [(1.9999%float, 0%N)] /\
    balance dst' = 0%float /\
    m_chains (tick 0 (mkSimulation script instantBridgeChains)).1 !! 1
      = Some c /\
    lockedBalances c = [] ++ (1.9999%float, 0%N) :: post /\
    balance c = debitAll 0 debits /\
    debits `sublist_of` debitsOf "B" [].
Proof.
  refine (proj1 (proj1 (proj2 (proj2 zero_countdown_behaves_like_one))
            (list Actions) Scripted
            (mkSimulation [[mkAction bridge "A" "B" 2]] instantBridgeChains)
            0%N [] [] (mkAction bridge "A" "B" 2)
            (snapshot 0 instantBridgeChains) 0 1
            (default chainA (snapshot 0 instantBridgeChains !! 0))
            (default chainB (snapshot 0 instantBridgeChains !! 1))
            1.9999%float 0%N _ _ _ _ _ _ _ _ _ _)).
  all: reflexivity.
Defined.

(** * Further properties of the program *)

(** ** Lookup loop *)

Lemma findChains_source_absent (chains : Chains) (i : nat) (src dst : string)
    (ps pd : option nat) :
  ~ In src (map chainName chains) ->
  (findChains chains i src dst ps pd).1 = ps.
Proof.
  revert i ps pd. induction chains as [|c chains IH]; intros i ps pd Hin; [done|].
  cbn [findChains]. cbn [map In] in Hin.
  destruct (String.eqb_spec (chainName c) src) as [Hn|Hn]; [tauto|].
  destruct (String.eqb (chainName c) dst); apply IH; tauto.
Qed.

Lemma findChains_destination_absent (chains : Chains) (i : nat) (src dst : string)
    (ps pd : option nat) :
  ~ In dst (map chainName chains) ->
  (findChains chains i src dst ps pd).2 = pd.
Proof.
  revert i ps pd. induction chains as [|c chains IH]; intros i ps pd Hin; [done|].
  cbn [findChains]. cbn [map In] in Hin.
  destruct (String.eqb (chainName c) src); [apply IH; tauto|].
  destruct (String.eqb_spec (chainName c) dst) as [Hn|Hn]; [tauto|].
  apply IH; tauto.
Qed.

Lemma findChains_source_present (chains : Chains) (i : nat) (src dst : string)
    (ps pd : option nat) :
  In src (map chainName chains) ->
  is_Some (findChains chains i src dst ps pd).1.
Proof.
  revert i ps pd. induction chains as [|c chains IH]; intros i ps pd Hin; [done|].
  cbn [findChains]. cbn [map In] in Hin.
  destruct (in_dec string_dec src (map chainName chains)) as [Hr|Hr].
  - destruct (String.eqb (chainName c) src); [auto|].
    destruct (String.eqb (chainName c) dst); auto.
  - destruct Hin as [Hc|]; [|done].
    rewrite <- Hc, String.eqb_refl, Hc.
    rewrite findChains_source_absent by done. eauto.
Qed.

Lemma findChains_destination_present (chains : Chains) (i : nat) (src dst : string)
    (ps pd : option nat) :
  src <> dst ->
  In dst (map chainName chains) ->
  is_Some (findChains chains i src dst ps pd).2.
Proof.
  intros Hne. revert i ps pd.
  induction chains as [|c chains IH]; intros i ps pd Hin; [done|].
  cbn [findChains]. cbn [map In] in Hin.
  destruct (in_dec string_dec dst (map chainName chains)) as [Hr|Hr].
  - destruct (String.eqb (chainName c) src); [auto|].
    destruct (String.eqb (chainName c) dst); auto.
  - destruct Hin as [Hc|]; [|done].
    destruct (String.eqb_spec (chainName c) src) as [Hs|Hs]; [congruence|].
    rewrite <- Hc, String.eqb_refl, Hc.
    rewrite findChains_destination_absent by done. eauto.
Qed.

Lemma lookup_name_In (chains : Chains) (i : nat) (c : Chain) :
  chains !! i = Some c -> In (chainName c) (map chainName chains).
Proof.
  intros Hi. apply in_map. apply list_elem_of_In.
  eapply list_elem_of_lookup_2; eauto.
Qed.

(** Resolution succeeds exactly when both names are names of chains. *)
Lemma findChains_resolves_iff (chains : Chains) (src dst : string) :
  src <> dst ->
  (exists s d, findChains chains 0 src dst None None = (Some s, Some d)) <->
  In src (map chainName chains) /\ In dst (map chainName chains).
Proof.
  intros Hne. split.
  - intros (s & d & Hf).
    destruct (findChains_resolved _ _ _ _ _ Hf) as (_ & (c & Hc & <-) & (c' & Hc' & <-)).
    eauto using lookup_name_In.
  - intros [Hs Hd].
    destruct (findChains_source_present chains 0 src dst None None Hs) as [s Hs'].
    destruct (findChains_destination_present chains 0 src dst None None Hne Hd)
      as [d Hd'].
    exists s, d. destruct (findChains chains 0 src dst None None). cbn in *. congruence.
Qed.

(** X1.  An action whose source and destination differ is discarded with
    the "failed to find chain" line, the chains left as they are, exactly
    when its source or its destination is not the name of a chain of the
    vector. *)
Theorem unknown_chain_rejected (tickCounter : N) (chains : Chains) (action : Action) :
  source action <> destination action ->
  (execAction tickCounter chains action
     = (chains, [FailedToFindChain tickCounter])
   <-> ~ (In (source action) (map chainName chains) /\
          In (destination action) (map chainName chains))).
Proof.
  intros Hne. rewrite <- (findChains_resolves_iff chains _ _ Hne).
  unfold execAction. apply String.eqb_neq in Hne. rewrite Hne.
  destruct (findChains chains 0 (source action) (destination action) None None)
    as [[s|] [d|]] eqn:Hf.
  - destruct (findChains_resolved _ _ _ _ _ Hf) as (_ & (c & Hc & _) & (c' & Hc' & _)).
    rewrite Hc, Hc'. split.
    + repeat match goal with
        | |- context [if ?b then _ else _] => destruct b
        | |- context [match ?x with _ => _ end] => destruct x
        end; intros [= ]; try done.
    + intros Hn. exfalso. apply Hn. eauto.
  - split; [|done]. intros _ (s' & d' & [= ]).
  - split; [|done]. intros _ (s' & d' & [= ]).
  - split; [|done]. intros _ (s' & d' & [= ]).
Qed.

Lemma findChains_source_last (chains : Chains) (i : nat) (src dst : string)
    (ps pd : option nat) (s : nat) :
  (findChains chains i src dst ps pd).1 = Some s ->
  forall k c, chains !! k = Some c -> chainName c = src -> i + k <= s.
Proof.
  revert i ps pd. induction chains as [|c0 chains IH]; intros i ps pd Hf k c Hk Hn;
    [done|].
  cbn [findChains] in Hf.
  destruct (String.eqb_spec (chainName c0) src) as [H0|H0].
  - destruct k as [|k]; cbn in Hk.
    + apply findChains_source in Hf as [[= <-]|[Hle _]]; lia.
    + specialize (IH _ _ _ Hf k c Hk Hn). lia.
  - destruct k as [|k]; cbn in Hk; [congruence|].
    destruct (String.eqb (chainName c0) dst);
      specialize (IH _ _ _ Hf k c Hk Hn); lia.
Qed.

Lemma findChains_destination_last (chains : Chains) (i : nat) (src dst : string)
    (ps pd : option nat) (d : nat) :
  src <> dst ->
  (findChains chains i src dst ps pd).2 = Some d ->
  forall k c, chains !! k = Some c -> chainName c = dst -> i + k <= d.
Proof.
  intros Hne. revert i ps pd.
  induction chains as [|c0 chains IH]; intros i ps pd Hf k c Hk Hn; [done|].
  cbn [findChains] in Hf.
  destruct (String.eqb_spec (chainName c0) src) as [H0|H0].
  - destruct k as [|k]; cbn in Hk; [congruence|].
    specialize (IH _ _ _ Hf k c Hk Hn). lia.
  - destruct (String.eqb_spec (chainName c0) dst) as [H1|H1].
    + destruct k as [|k]; cbn in Hk.
      * apply findChains_destination in Hf as [[= <-]|[Hle _]]; lia.
      * specialize (IH _ _ _ Hf k c Hk Hn). lia.
    + destruct k as [|k]; cbn in Hk; [congruence|].
      specialize (IH _ _ _ Hf k c Hk Hn). lia.
Qed.

Lemma getChain_first (chains : Chains) (name : string) (c : Chain) :
  getChain chains name = Some c ->
  exists i, chains !! i = Some c /\ chainName c = name /\
    forall k c', chains !! k = Some c' -> chainName c' = name -> i <= k.
Proof.
  induction chains as [|c0 chains IH]; [done|]. cbn [getChain].
  destruct (String.eqb_spec (chainName c0) name) as [H0|H0].
  - intros [= <-]. exists 0. repeat split; [done|]. intros; lia.
  - intros Hg. destruct (IH Hg) as (i & Hi & Hn & Hfirst).
    exists (S i). repeat split; [done..|].
    intros [|k] c' Hk Hn'; cbn in Hk; [congruence|].
    specialize (Hfirst k c' Hk Hn'). lia.
Qed.

Lemma getChain_present (chains : Chains) (name : string) :
  In name (map chainName chains) -> is_Some (getChain chains name).
Proof.
  induction chains as [|c0 chains IH]; [done|]. cbn [getChain map In].
  destruct (String.eqb_spec (chainName c0) name); [eauto|].
  intros [|]; [done|auto].
Qed.

Lemma unique_name_index (chains : Chains) (i j : nat) (c c' : Chain) :
  NoDup (map chainName chains) ->
  chains !! i = Some c -> chains !! j = Some c' ->
  chainName c = chainName c' -> i = j.
Proof.
  intros Hnd Hi Hj Hn.
  eapply (NoDup_lookup (map chainName chains) i j (chainName c)); [done| |].
  - change (map chainName chains) with (chainName <$> chains).
    now rewrite list_lookup_fmap, Hi.
  - change (map chainName chains) with (chainName <$> chains).
    rewrite list_lookup_fmap, Hj. cbn. now rewrite Hn.
Qed.

(** With unique names the strategy's lookup and the engine's lookup give
    the same chain. *)
Lemma getChain_agrees (chains : Chains) (name : string) (i : nat) (c : Chain) :
  NoDup (map chainName chains) ->
  chains !! i = Some c -> chainName c = name ->
  getChain chains name = Some c.
Proof.
  intros Hnd Hi Hn.
  destruct (getChain_present chains name) as [c' Hg].
  { rewrite <- Hn. eauto using lookup_name_In. }
  destruct (getChain_first _ _ _ Hg) as (j & Hj & Hn' & _).
  assert (i = j) by (eapply unique_name_index; eauto; congruence).
  subst. congruence.
Qed.

(** X2.  When the lookup loop resolves an action, the source pointer is
    the last chain of the vector named like the source and the destination
    pointer the last one named like the destination, whereas the strategy's
    [getChain] returns the first chain of a name.  With chain names that
    are all different the two lookups give the same chains. *)
Theorem engine_takes_last_strategy_takes_first (chains : Chains)
    (src dst : string) (s d : nat) :
  findChains chains 0 src dst None None = (Some s, Some d) ->
  (forall k c, chains !! k = Some c -> chainName c = src -> k <= s) /\
  (forall k c, chains !! k = Some c -> chainName c = dst -> k <= d) /\
  (exists i c, getChain chains src = Some c /\ chains !! i = Some c /\
     forall k c', chains !! k = Some c' -> chainName c' = src -> i <= k) /\
  (NoDup (map chainName chains) ->
   getChain chains src = chains !! s /\ getChain chains dst = chains !! d).
Proof.
  intros Hf.
  destruct (findChains_resolved _ _ _ _ _ Hf)
    as (Hne & (c & Hc & Hcn) & (c' & Hc' & Hcn')).
  assert (Hsd : src <> dst).
  { intros ->. 
    pose proof (findChains_destination chains 0 dst dst None None d) as Hd.
    rewrite Hf in Hd. destruct (Hd eq_refl) as [|(_ & x & _ & ? & ?)]; congruence. }
  split; [|split; [|split]].
  - intros k x Hk Hn.
    apply (findChains_source_last chains 0 src dst None None s) with (k:=k) (c:=x);
      [now rewrite Hf|done..].
  - intros k x Hk Hn.
    apply (findChains_destination_last chains 0 src dst None None d Hsd)
      with (k:=k) (c:=x); [now rewrite Hf|done..].
  - destruct (getChain_present chains src) as [x Hg].
    { rewrite <- Hcn. eauto using lookup_name_In. }
    destruct (getChain_first _ _ _ Hg) as (i & Hi & _ & Hfirst). eauto.
  - intros Hnd. rewrite Hc, Hc'. split; eapply getChain_agrees; eauto.
Qed.

Lemma engine_takes_last_strategy_takes_first_witness :
  (exists i c, getChain twoChainsNamedA "A" = Some c /\
     twoChainsNamedA !! i = Some c /\
     forall k c', twoChainsNamedA !! k = Some c' -> chainName c' = "A"%string -> i <= k).
Proof.
  exact (proj1 (proj2 (proj2 (engine_takes_last_strategy_takes_first
           twoChainsNamedA "A" "B" 2 1 eq_refl)))).
Defined.

Ltac split_ifs :=
  repeat match goal with
    | |- context [if ?b then _ else _] => destruct b
    | |- context [match ?x with _ => _ end] => destruct x
    end.

Lemma execAction_one_line (tickCounter : N) (chains : Chains) (action : Action) :
  exists e, (execAction tickCounter chains action).2 = [e] /\
            (isAccepted e || isRejected e) = true.
Proof.
  unfold execAction.
  destruct (String.eqb _ _); [eauto|].
  destruct (findChains chains 0 (source action) (destination action) None None)
    as [[s|] [d|]] eqn:Hf; eauto.
  destruct (findChains_resolved _ _ _ _ _ Hf) as (_ & (c & Hc & _) & (c' & Hc' & _)).
  rewrite Hc, Hc'. split_ifs; eauto.
Qed.

(** X3.  The action loop prints exactly one line per proposed action, and
    each of these lines is one of the seven rejection lines or one of the
    two acceptance lines: no action is dropped silently. *)
Theorem one_line_per_action (tickCounter : N) (chains : Chains) (actions : Actions) :
  length (execActions tickCounter chains actions).2 = length actions /\
  Forall (fun e => (isAccepted e || isRejected e) = true)
    (execActions tickCounter chains actions).2.
Proof.
  revert chains. induction actions as [|a actions IH]; intros chains; [done|].
  cbn [execActions].
  destruct (execAction_one_line tickCounter chains a) as (e & He & Hk).
  destruct (execAction tickCounter chains a) as [c1 o1]. cbn in He. subst.
  specialize (IH c1). destruct (execActions tickCounter c1 actions) as [c2 o2].
  cbn in *. destruct IH as [IH1 IH2]. split; [lia|]. now constructor.
Qed.

(** X4.  An action is accepted, that is answered with a "Bridged" or an
    "Executed" line, exactly when none of the five checks fails. *)
Theorem accepted_iff_all_checks_pass (tickCounter : N) (chains : Chains)
    (action : Action) :
  firstFailingCheck chains action = None <->
  exists e, (execAction tickCounter chains action).2 = [e] /\ isAccepted e = true.
Proof.
  unfold firstFailingCheck, execAction, destinationPool.
  destruct (String.eqb _ _).
  { split; [done|]. intros (e & [= <-] & ?). done. }
  destruct (findChains chains 0 (source action) (destination action) None None)
    as [[s|] [d|]] eqn:Hf;
    try (split; [done|]; intros (e & [= <-] & ?); done).
  destruct (findChains_resolved _ _ _ _ _ Hf) as (_ & (c & Hc & _) & (c' & Hc' & _)).
  rewrite Hc, Hc'.
  destruct (balance c <? amount action)%float.
  { split; [done|]. intros (e & [= <-] & ?). done. }
  destruct (type action).
  - destruct (currentOutflowBal c' <? amount action)%float.
    { split; [done|]. intros (e & [= <-] & ?). done. }
    destruct (amount action <? gasCost (params c))%float.
    { split; [done|]. intros (e & [= <-] & ?). done. }
    split; [|done]. intros _. eexists. split; [reflexivity|done].
  - destruct (currentOrderflowBal c' <? amount action)%float.
    { split; [done|]. intros (e & [= <-] & ?). done. }
    destruct (amount action <? gasCost (params c))%float.
    { split; [done|]. intros (e & [= <-] & ?). done. }
    split; [|done]. intros _. eexists. split; [reflexivity|done].
Qed.

(** ** Static members *)

Lemma alter_static (f : Chain -> Chain) (chains : Chains) (i : nat) :
  (forall c, staticPart (f c) = staticPart c) ->
  staticPart <$> alter f i chains = staticPart <$> chains.
Proof.
  intros Hf. apply list_eq. intros k.
  rewrite !list_lookup_fmap, list_lookup_alter.
  case_decide; subst; [|done].
  destruct (chains !! k); cbn; [|done]. now rewrite Hf.
Qed.

Lemma execAction_static (tickCounter : N) (chains : Chains) (action : Action) :
  staticPart <$> (execAction tickCounter chains action).1 = staticPart <$> chains.
Proof.
  unfold execAction. split_ifs; cbn [fst]; try done;
    rewrite !alter_static; done.
Qed.

Lemma execActions_static (tickCounter : N) (chains : Chains) (actions : Actions) :
  staticPart <$> (execActions tickCounter chains actions).1 = staticPart <$> chains.
Proof.
  revert chains. induction actions as [|a actions IH]; intros chains; [done|].
  cbn [execActions].
  pose proof (execAction_static tickCounter chains a) as Ha.
  destruct (execAction tickCounter chains a) as [c1 o1].
  specialize (IH c1). destruct (execActions tickCounter c1 actions) as [c2 o2].
  cbn in *. congruence.
Qed.

Lemma snapshot_static (tickCounter : N) (chains : Chains) :
  staticPart <$> snapshot tickCounter chains = staticPart <$> chains.
Proof.
  unfold snapshot. rewrite tickChains_spec. cbn [fst].
  rewrite <- list_fmap_compose. apply list_fmap_ext. intros i c _.
  cbn. now rewrite tickChain_spec.
Qed.

Lemma tick_static {St : Type} `{IStrategy St} (t : N) (sim : Simulation St) :
  staticPart <$> m_chains (tick t sim).1 = staticPart <$> m_chains sim.
Proof.
  rewrite tick_snapshot. cbn zeta.
  destruct (onTickRecalc _ _) as [st actions]. cbn [m_chains].
  now rewrite execActions_static, snapshot_static.
Qed.

(** X5.  No run, whatever the strategy and the number of ticks, adds,
    removes or reorders chains, or changes a chain's name, parameters or
    any of its three maxima; [currentStrategyBal] is never written either,
    so it keeps the starting balance while [balance] moves. *)
Theorem run_keeps_static_members {St : Type} `{IStrategy St} (k : nat) (t : N)
    (sim : Simulation St) :
  staticPart <$> m_chains (ticksFrom k t sim).1 = staticPart <$> m_chains sim.
Proof.
  revert t sim. induction k as [|k IH]; intros t sim; [done|].
  now rewrite ticksFrom_succ, IH, tick_static.
Qed.

(** ** The tick counter *)

Lemma execAction_counter (t t' : N) (chains : Chains) (action : Action) :
  (execAction t chains action).1 = (execAction t' chains action).1.
Proof. unfold execAction. split_ifs; done. Qed.

Lemma execActions_counter (t t' : N) (chains : Chains) (actions : Actions) :
  (execActions t chains actions).1 = (execActions t' chains actions).1.
Proof.
  revert chains. induction actions as [|a actions IH]; intros chains; [done|].
  cbn [execActions].
  pose proof (execAction_counter t t' chains a) as Ha.
  destruct (execAction t chains a) as [c1 o1].
  destruct (execAction t' chains a) as [c1' o1']. cbn in Ha. subst c1'.
  specialize (IH c1).
  destruct (execActions t c1 actions) as [c2 o2].
  now destruct (execActions t' c1 actions) as [c2' o2'].
Qed.

Lemma snapshot_counter (t t' : N) (chains : Chains) :
  snapshot t chains = snapshot t' chains.
Proof.
  unfold snapshot. rewrite !tickChains_spec. cbn [fst].
  apply list_fmap_ext. intros i c _. now rewrite !tickChain_spec.
Qed.

Lemma tick_counter {St : Type} `{IStrategy St} (t t' : N) (sim : Simulation St) :
  (tick t sim).1 = (tick t' sim).1.
Proof.
  rewrite !tick_snapshot. cbn zeta. rewrite (snapshot_counter t t').
  destruct (onTickRecalc _ _) as [st actions].
  now rewrite (execActions_counter t t').
Qed.

Lemma ticksFrom_counter {St : Type} `{IStrategy St} (k : nat) (t t' : N)
    (sim : Simulation St) :
  (ticksFrom k t sim).1 = (ticksFrom k t' sim).1.
Proof.
  revert t t' sim. induction k as [|k IH]; intros t t' sim; [done|].
  rewrite !ticksFrom_succ, (tick_counter t t'). apply IH.
Qed.

Lemma ticksFrom_app {St : Type} `{IStrategy St} (k1 k2 : nat) (t : N)
    (sim : Simulation St) :
  ticksFrom (k1 + k2) t sim =
    let '(sim1, out1) := ticksFrom k1 t sim in
    let '(sim2, out2) := ticksFrom k2 (t + N.of_nat k1) sim1 in
    (sim2, out1 ++ out2).
Proof.
  revert t sim. induction k1 as [|k1 IH]; intros t sim.
  - cbn [ticksFrom Nat.add]. rewrite N.add_0_r.
    now destruct (ticksFrom k2 t sim).
  - cbn [ticksFrom Nat.add]. destruct (tick t sim) as [s0 o0].
    rewrite IH. destruct (ticksFrom k1 (N.succ t) s0) as [s1 o1].
    replace (N.succ t + N.of_nat k1)%N with (t + N.of_nat (S k1))%N by lia.
    destruct (ticksFrom k2 _ s1) as [s2 o2]. now rewrite app_assoc.
Qed.

(** X6.  The tick counter only reaches the output: the strategy object and
    the chains after [k] ticks are the same whatever the counter started
    at.  So the state after [simulate (n + m)] is the state after running
    [simulate m] on the state that [simulate n] leaves. *)
Theorem state_does_not_depend_on_tick_counter {St : Type} `{IStrategy St}
    (sim : Simulation St) :
  (forall (k : nat) (t t' : N), (ticksFrom k t sim).1 = (ticksFrom k t' sim).1) /\
  (forall n m : N, (simulate (n + m) sim).1 = (simulate m (simulate n sim).1).1).
Proof.
  split; [intros; apply ticksFrom_counter|]. intros n m.
  unfold simulate.
  replace (N.to_nat (n + m)) with (N.to_nat n + N.to_nat m) by lia.
  rewrite ticksFrom_app.
  destruct (ticksFrom (N.to_nat n) 0 sim) as [s1 o1]. cbn [fst].
  rewrite (surjective_pairing (ticksFrom (N.to_nat m) (0 + N.of_nat (N.to_nat n)) s1)).
  rewrite (surjective_pairing (ticksFrom (N.to_nat m) 0 s1)).
  cbn [fst]. apply ticksFrom_counter.
Qed.

(** ** The release pass as a partition *)

Lemma isDue_tickDown (e : Amount * Ticks) :
  isDue e = (tickDown e.2 =? 0)%N.
Proof.
  unfold isDue, tickDown. destruct (N.ltb_spec 0 e.2), (N.leb_spec e.2 1),
    (N.eqb_spec (N.pred e.2) 0), (N.eqb_spec e.2 0); lia || done.
Qed.

Lemma agedLedger_filter (pending : LockedAmounts) :
  agedLedger pending =
    map (fun e => (e.1, (e.2 - 1)%N)) (List.filter (fun e => negb (isDue e)) pending).
Proof.
  induction pending as [|e pending IH]; [done|].
  unfold agedLedger in *. cbn [omap list_omap List.filter].
  unfold agePending at 1. rewrite <- isDue_tickDown.
  destruct (isDue e) eqn:He; cbn [negb]; [done|].
  cbn [map]. rewrite IH. do 2 f_equal.
  unfold isDue, tickDown in *. destruct (N.ltb_spec 0 e.2), (N.leb_spec e.2 1); lia || done.
Qed.

Lemma releasedAmounts_filter (pending : LockedAmounts) :
  releasedAmounts pending = map fst (List.filter isDue pending).
Proof.
  induction pending as [|e pending IH]; [done|].
  unfold releasedAmounts in *. cbn [omap list_omap List.filter].
  unfold releasedAmount at 1. rewrite <- isDue_tickDown.
  destruct (isDue e); cbn [map]; now rewrite IH.
Qed.

(** X7.  The release pass splits the ledger in two, in order: the entries
    with a countdown of 0 or 1 are released, their amounts added to the
    balance one after the other and one line printed for each; the others
    stay with their countdown one lower.  Nothing is lost or duplicated,
    and no entry that stays has a countdown of zero. *)
Theorem release_pass_partitions_ledger (tickCounter : N) (name : string)
    (pending : LockedAmounts) (bal : Amount) :
  let due := List.filter isDue pending in
  let waiting := List.filter (fun e => negb (isDue e)) pending in
  releaseLocked tickCounter name pending bal =
    (fold_left (fun acc e => (acc + e.1)%float) due bal,
     map (fun e => (e.1, (e.2 - 1)%N)) waiting,
     map (fun e => AmountNowAvailable tickCounter e.1 name) due) /\
  Permutation pending (due ++ waiting) /\
  Forall (fun e => (1 <= e.2)%N) (map (fun e => (e.1, (e.2 - 1)%N)) waiting).
Proof.
  cbn zeta. split; [|split].
  - rewrite releaseLocked_spec, agedLedger_filter, releasedAmounts_filter.
    unfold creditAll, releaseLines. rewrite map_map.
    do 2 f_equal.
    generalize bal. induction (List.filter isDue pending) as [|e l IH]; [done|].
    intros b. cbn. apply IH.
  - induction pending as [|e pending IH]; [done|]. cbn [List.filter].
    destruct (isDue e); cbn [negb app].
    + now constructor.
    + rewrite <- Permutation_middle. now constructor.
  - apply Forall_map, Forall_forall. intros e He.
    apply list_elem_of_In, filter_In in He as [_ He].
    unfold isDue in He. cbn. destruct (N.leb_spec e.2 1); [done|lia].
Qed.

(** ** The two outcomes of an action *)

Lemma passes_all_checks (chains : Chains) (action : Action) :
  firstFailingCheck chains action = None ->
  exists s d src dst,
    String.eqb (source action) (destination action) = false /\
    findChains chains 0 (source action) (destination action) None None
      = (Some s, Some d) /\
    chains !! s = Some src /\ chains !! d = Some dst /\
    (balance src <? amount action)%float = false /\
    (destinationPool (type action) dst <? amount action)%float = false /\
    (amount action <? gasCost (params src))%float = false.
Proof.
  unfold firstFailingCheck.
  destruct (String.eqb _ _); [done|].
  destruct (findChains chains 0 (source action) (destination action) None None)
    as [[s|] [d|]] eqn:Hf; try done.
  destruct (findChains_resolved _ _ _ _ _ Hf) as (_ & (c & Hc & _) & (c' & Hc' & _)).
  rewrite Hc, Hc'.
  destruct (balance c <? amount action)%float eqn:H1; [done|].
  destruct (destinationPool (type action) c' <? amount action)%float eqn:H2; [done|].
  destruct (amount action <? gasCost (params c))%float eqn:H3; [done|].
  intros _. exists s, d, c, c'. done.
Qed.

(** Every action is either rejected, leaving the chains as they are, or
    accepted, which rewrites the source and the destination and pushes
    one entry on the destination's ledger. *)
Lemma execAction_outcomes (tickCounter : N) (chains : Chains) (action : Action) :
  (exists e, execAction tickCounter chains action = (chains, [e]) /\
             isAccepted e = false /\ isRelease e = false) \/
  (exists s d src dst src' dst' e,
     s <> d /\ chains !! s = Some src /\ chains !! d = Some dst /\
     execAction tickCounter chains action
       = (<[d := dst']> (<[s := src']> chains), [e]) /\
     isAccepted e = true /\ isRelease e = false /\
     params src' = params src /\ lockedBalances src' = lockedBalances src /\
     params dst' = params dst /\
     lockedBalances dst' = lockedBalances dst ++ [settlementOf action src]).
Proof.
  destruct (firstFailingCheck chains action) as [check|] eqn:Hc.
  - left. rewrite (execAction_rejected _ _ _ _ Hc). eexists. split; [done|].
    destruct check, (type action); done.
  - right.
    destruct (passes_all_checks _ _ Hc)
      as (s & d & src & dst & Hsame & Hf & Hs & Hd & Hb & Hp & Hg).
    destruct (findChains_resolved _ _ _ _ _ Hf) as (Hne & _).
    unfold settlementOf. destruct (type action) eqn:Hty; cbn in Hp.
    + rewrite (execAction_bridge tickCounter chains action s d src dst) by done.
      exists s, d, src, dst. do 3 eexists.
      split; [done|]. split; [done|]. split; [done|].
      split; [reflexivity|]. repeat split.
    + rewrite (execAction_execute tickCounter chains action s d src dst) by done.
      exists s, d, src, dst. do 3 eexists.
      split; [done|]. split; [done|]. split; [done|].
      split; [reflexivity|]. repeat split.
Qed.

(** ** Countdowns stay below the lock times *)

Lemma tickChain_locksBelow (L : Ticks) (t : N) (c : Chain) :
  locksBelow L c -> locksBelow L (tickChain t c).1.
Proof.
  intros (Hb & Hi & Hl). rewrite tickChain_spec. repeat split; try done.
  cbn. rewrite agedLedger_filter. apply Forall_map, Forall_forall.
  intros e He. apply list_elem_of_In, filter_In in He as [He _].
  rewrite Forall_forall in Hl. apply list_elem_of_In, Hl in He. cbn. lia.
Qed.

Lemma snapshot_locksBelow (L : Ticks) (t : N) (chains : Chains) :
  Forall (locksBelow L) chains -> Forall (locksBelow L) (snapshot t chains).
Proof.
  intros H. unfold snapshot. rewrite tickChains_spec. cbn [fst].
  apply Forall_fmap. eapply Forall_impl; [exact H|].
  intros c Hc. now apply tickChain_locksBelow.
Qed.

Lemma execAction_locksBelow (L : Ticks) (t : N) (chains : Chains) (action : Action) :
  Forall (locksBelow L) chains ->
  Forall (locksBelow L) (execAction t chains action).1.
Proof.
  intros H.
  destruct (execAction_outcomes t chains action)
    as [(e & -> & _)|(s & d & src & dst & src' & dst' & e & Hne & Hs & Hd & -> &
                      _ & _ & Hps & Hls & Hpd & Hld)]; [done|].
  cbn [fst].
  pose proof (Forall_lookup_1 _ _ _ _ H Hs) as (Hsb & Hsi & Hsl).
  pose proof (Forall_lookup_1 _ _ _ _ H Hd) as (Hdb & Hdi & Hdl).
  apply Forall_insert; [apply Forall_insert; [done|]|].
  - unfold locksBelow. now rewrite Hps, Hls.
  - unfold locksBelow. rewrite Hpd, Hld. repeat split; try done.
    apply Forall_app. split; [done|]. constructor; [|done].
    unfold settlementOf. destruct (type action); cbn; done.
Qed.

Lemma execActions_locksBelow (L : Ticks) (t : N) (chains : Chains) (actions : Actions) :
  Forall (locksBelow L) chains ->
  Forall (locksBelow L) (execActions t chains actions).1.
Proof.
  revert chains. induction actions as [|a actions IH]; intros chains H; [done|].
  cbn [execActions].
  pose proof (execAction_locksBelow L t chains a H) as Ha.
  destruct (execAction t chains a) as [c1 o1].
  specialize (IH c1 Ha). now destruct (execActions t c1 actions) as [c2 o2].
Qed.

(** X8.  If every chain's bridging time and inventory lock time are at
    most [L], and every countdown in every ledger is at most [L], then the
    same holds after any number of ticks under any strategy. *)
Theorem countdowns_stay_below_lock_times {St : Type} `{IStrategy St}
    (L : Ticks) (k : nat) (t : N) (sim : Simulation St) :
  Forall (locksBelow L) (m_chains sim) ->
  Forall (locksBelow L) (m_chains (ticksFrom k t sim).1).
Proof.
  revert t sim. induction k as [|k IH]; intros t sim Hinv; [done|].
  rewrite ticksFrom_succ. apply IH.
  rewrite tick_snapshot. cbn zeta.
  destruct (onTickRecalc _ _) as [st actions]. cbn [m_chains].
  now apply execActions_locksBelow, snapshot_locksBelow.
Qed.

Lemma countdowns_stay_below_lock_times_witness :
  Forall (locksBelow 8) (m_chains (ticksFrom 50 0 (Simulation_new tt)).1).
Proof.
  apply (countdowns_stay_below_lock_times 8 50 0 (Simulation_new tt)).
  repeat constructor; cbn; lia.
Defined.

(** ** A ledger left alone drains *)

Lemma agedTimes_drains (k : nat) (pending : LockedAmounts) :
  1 <= k ->
  Forall (fun e => (e.2 <= N.of_nat k)%N) pending ->
  agedTimes k pending = [].
Proof.
  revert pending. induction k as [|k IH]; intros pending Hk Hl; [lia|].
  cbn [agedTimes]. destruct k as [|k].
  - cbn. rewrite agedLedger_filter.
    replace (List.filter (fun e => negb (isDue e)) pending) with (@nil (Amount * Ticks));
      [done|].
    symmetry. induction Hl as [|e l He Hl IHl]; [done|]. cbn.
    unfold isDue at 1. destruct (N.leb_spec e.2 1); [done|lia].
  - apply IH; [lia|]. rewrite agedLedger_filter.
    apply Forall_map, Forall_forall. intros e He.
    apply list_elem_of_In, filter_In in He as [He _].
    rewrite Forall_forall in Hl. apply list_elem_of_In, Hl in He. cbn. lia.
Qed.

(** X9.  When the strategy proposes nothing, [k >= 1] ticks empty every
    ledger whose countdowns are all at most [k]. *)
Theorem idle_ledgers_drain (k : nat) (t : N) (chains : Chains) :
  1 <= k ->
  Forall (fun c => Forall (fun e => (e.2 <= N.of_nat k)%N) (lockedBalances c))
    chains ->
  Forall (fun c => lockedBalances c = [])
    (m_chains (ticksFrom k t (mkSimulation ([] : list Actions) chains)).1).
Proof.
  intros Hk Hl. apply Forall_lookup. intros j c Hj.
  rewrite idle_ticks_lookup in Hj.
  destruct (chains !! j) as [c0|] eqn:Hc0; [|done]. cbn in Hj.
  injection Hj as <-.
  destruct (idleChain_ledger k t c0) as [-> _].
  apply agedTimes_drains; [done|].
  exact (Forall_lookup_1 _ _ _ _ Hl Hc0).
Qed.

Lemma idle_ledgers_drain_witness :
  Forall (fun c => lockedBalances c = [])
    (m_chains (ticksFrom 4 1 (mkSimulation ([] : list Actions)
                                (m_chains afterFirstTick))).1).
Proof.
  apply (idle_ledgers_drain 4 1 (m_chains afterFirstTick)); [lia|].
  repeat constructor; cbn; lia.
Defined.

(** ** Pending entries against the lines printed *)

Lemma countLines_app (p : Event -> bool) (o1 o2 : list Event) :
  countLines p (o1 ++ o2) = countLines p o1 + countLines p o2.
Proof. unfold countLines. now rewrite List.filter_app, length_app. Qed.

Lemma countPending_insert (chains : Chains) (i : nat) (c c' : Chain) :
  chains !! i = Some c ->
  countPending (<[i := c']> chains) + length (lockedBalances c)
    = countPending chains + length (lockedBalances c').
Proof.
  unfold countPending. revert i.
  induction chains as [|c0 chains IH]; intros i Hi; [done|].
  destruct i as [|i]; simpl in *.
  - injection Hi as ->. lia.
  - specialize (IH i Hi). lia.
Qed.

Lemma release_lengths (pending : LockedAmounts) :
  length (agedLedger pending) + length (releasedAmounts pending) = length pending.
Proof.
  induction pending as [|e pending IH]; [done|].
  unfold agedLedger, releasedAmounts in *. cbn [omap list_omap].
  unfold agePending at 1, releasedAmount at 1.
  destruct (tickDown e.2 =? 0)%N; cbn; lia.
Qed.

Lemma releaseLines_count (t : N) (name : string) (amounts : list Amount) :
  countLines isRelease (releaseLines t name amounts) = length amounts /\
  countLines isAccepted (releaseLines t name amounts) = 0.
Proof.
  unfold countLines, releaseLines.
  induction amounts as [|a l [IH1 IH2]]; [done|]. cbn. split; [lia|done].
Qed.

Lemma tickChains_count (t : N) (chains : Chains) :
  countPending (tickChains t chains).1 + countLines isRelease (tickChains t chains).2
    = countPending chains /\
  countLines isAccepted (tickChains t chains).2 = 0.
Proof.
  rewrite tickChains_spec. cbn [fst snd].
  induction chains as [|c chains [IH1 IH2]]; [done|].
  cbn [map concat]. rewrite !countLines_app.
  unfold countPending in *. cbn [sum_list_with].
  rewrite tickChain_spec. cbn [fst snd lockedBalances].
  destruct (releaseLines_count t (chainName c) (releasedAmounts (lockedBalances c)))
    as [-> ->].
  pose proof (release_lengths (lockedBalances c)).
  split; lia.
Qed.

Lemma execAction_count (t : N) (chains : Chains) (action : Action) :
  countPending (execAction t chains action).1
    = countPending chains + countLines isAccepted (execAction t chains action).2 /\
  countLines isRelease (execAction t chains action).2 = 0.
Proof.
  destruct (execAction_outcomes t chains action)
    as [(e & -> & Ha & Hr)|(s & d & src & dst & src' & dst' & e & Hne & Hs & Hd & -> &
                           Ha & Hr & _ & Hls & _ & Hld)];
    cbn [fst snd]; unfold countLines; cbn [List.filter]; rewrite Ha, Hr; cbn [length].
  - split; [lia|done].
  - split; [|done].
    pose proof (countPending_insert chains s src src' Hs) as H1.
    assert (Hd' : <[s := src']> chains !! d = Some dst)
      by now rewrite list_lookup_insert_ne.
    pose proof (countPending_insert _ d dst dst' Hd') as H2.
    rewrite Hls in H1. rewrite Hld, length_app in H2. cbn in H2. lia.
Qed.

Lemma execActions_count (t : N) (chains : Chains) (actions : Actions) :
  countPending (execActions t chains actions).1
    = countPending chains + countLines isAccepted (execActions t chains actions).2 /\
  countLines isRelease (execActions t chains actions).2 = 0.
Proof.
  revert chains. induction actions as [|a actions IH]; intros chains.
  - unfold countLines. cbn [execActions fst snd List.filter length].
    split; [lia|done].
  - cbn [execActions].
    pose proof (execAction_count t chains a) as [Ha1 Ha2].
    destruct (execAction t chains a) as [c1 o1].
    specialize (IH c1) as [IH1 IH2].
    destruct (execActions t c1 actions) as [c2 o2]. cbn [fst snd] in *.
    rewrite !countLines_app. split; lia.
Qed.

Lemma tick_count {St : Type} `{IStrategy St} (t : N) (sim : Simulation St) :
  countPending (m_chains (tick t sim).1) + countLines isRelease (tick t sim).2
    = countPending (m_chains sim) + countLines isAccepted (tick t sim).2.
Proof.
  unfold tick.
  pose proof (tickChains_count t (m_chains sim)) as [H1 H2].
  destruct (tickChains t (m_chains sim)) as [chains released].
  destruct (onTickRecalc (m_strategy sim) chains) as [st actions].
  pose proof (execActions_count t chains actions) as [H3 H4].
  destruct (execActions t chains actions) as [chains' out].
  cbn [fst snd m_chains] in *. rewrite !countLines_app.
  assert (Hb : forall p, (p = isRelease \/ p = isAccepted) ->
    countLines p (if (t mod 100 =? 0)%N then [TickBanner t] else []) = 0).
  { intros p [-> | ->]; destruct (t mod 100 =? 0)%N; done. }
  rewrite !Hb by auto. lia.
Qed.

(** X10.  Over any run, the number of pending entries in all ledgers at
    the end, plus the number of release lines printed, equals the number
    of pending entries at the start plus the number of acceptance lines
    printed: every accepted action pushes exactly one entry, and every
    entry that leaves a ledger is announced by exactly one release line. *)
Theorem pending_entries_match_the_log {St : Type} `{IStrategy St} (k : nat)
    (t : N) (sim : Simulation St) :
  countPending (m_chains (ticksFrom k t sim).1)
  + countLines isRelease (ticksFrom k t sim).2
  = countPending (m_chains sim) + countLines isAccepted (ticksFrom k t sim).2.
Proof.
  revert t sim. induction k as [|k IH]; intros t sim.
  { unfold countLines. cbn [ticksFrom fst snd List.filter length]. lia. }
  cbn [ticksFrom]. pose proof (tick_count t sim) as Ht.
  destruct (tick t sim) as [sim' out]. specialize (IH (N.succ t) sim').
  destruct (ticksFrom k (N.succ t) sim') as [sim'' out'].
  cbn [fst snd] in *. rewrite !countLines_app. lia.
Qed.

(** ** A NaN amount *)

Lemma Prim2SF_nan : Prim2SF nan = S754_nan.
Proof. reflexivity. Qed.

Lemma ltb_nan_r (x : Amount) : (x <? nan)%float = false.
Proof.
  rewrite ltb_spec, Prim2SF_nan. unfold SFltb.
  now destruct (Prim2SF x) as [?|?| |? ? ?].
Qed.

Lemma ltb_nan_l (x : Amount) : (nan <? x)%float = false.
Proof. now rewrite ltb_spec, Prim2SF_nan. Qed.

Lemma of_spec_nan (x : Amount) : Prim2SF x = S754_nan -> x = nan.
Proof. intros Hx. rewrite <- (SF2Prim_Prim2SF x), Hx. reflexivity. Qed.

Lemma sub_nan_l (x : Amount) : (nan - x)%float = nan.
Proof. apply of_spec_nan. now rewrite sub_spec, Prim2SF_nan. Qed.

Lemma sub_nan_r (x : Amount) : (x - nan)%float = nan.
Proof.
  apply of_spec_nan. rewrite sub_spec, Prim2SF_nan.
  now destruct (Prim2SF x) as [?|?| |? ? ?].
Qed.

Lemma mul_nan_l (x : Amount) : (nan * x)%float = nan.
Proof. apply of_spec_nan. now rewrite mul_spec, Prim2SF_nan. Qed.

(** X11.  A NaN amount passes every check, since each check is a [<]
    comparison and none holds for a NaN: the action is accepted, the
    source's [balance] and the destination's pool become NaN, and a NaN
    settlement is pushed on the destination's ledger. *)
Theorem nan_amount_is_accepted (tickCounter : N) (chains : Chains)
    (action : Action) (s d : nat) (src dst : Chain) :
  String.eqb (source action) (destination action) = false ->
  findChains chains 0 (source action) (destination action) None None
    = (Some s, Some d) ->
  chains !! s = Some src -> chains !! d = Some dst ->
  amount action = nan ->
  firstFailingCheck chains action = None /\
  balance <$> (execAction tickCounter chains action).1 !! s = Some nan /\
  destinationPool (type action)
    <$> (execAction tickCounter chains action).1 !! d = Some nan /\
  lockedBalances <$> (execAction tickCounter chains action).1 !! d
    = Some (lockedBalances dst ++
            [(nan, match type action with
                   | bridge => bridgingTime (params src)
                   | execute => inventoryLockTime (params src)
                   end)]).
Proof.
  intros Hsame Hf Hs Hd Hnan.
  destruct (findChains_resolved _ _ _ _ _ Hf) as (Hne & _).
  pose proof (lookup_lt_Some _ _ _ Hs). pose proof (lookup_lt_Some _ _ _ Hd).
  split.
  { unfold firstFailingCheck. rewrite Hsame, Hf, Hs, Hd, Hnan.
    now rewrite !ltb_nan_r, ltb_nan_l. }
  destruct (type action) eqn:Hty.
  - rewrite (execAction_bridge tickCounter chains action s d src dst);
      rewrite ?Hnan, ?ltb_nan_r, ?ltb_nan_l; try done.
    cbn [fst]. rewrite list_lookup_insert_ne by done.
    rewrite !list_lookup_insert_eq by now rewrite ?length_insert.
    cbn. now rewrite !sub_nan_r, sub_nan_l.
  - rewrite (execAction_execute tickCounter chains action s d src dst);
      rewrite ?Hnan, ?ltb_nan_r, ?ltb_nan_l; try done.
    cbn [fst]. rewrite list_lookup_insert_ne by done.
    rewrite !list_lookup_insert_eq by now rewrite ?length_insert.
    cbn. now rewrite !sub_nan_r, sub_nan_l, mul_nan_l.
Qed.

Lemma nan_amount_is_accepted_witness :
  firstFailingCheck initRoutes (mkAction bridge "A" "B" nan) = None /\
  balance <$> (execAction 0 initRoutes (mkAction bridge "A" "B" nan)).1 !! 0
    = Some nan.
Proof.
  destruct (nan_amount_is_accepted 0 initRoutes (mkAction bridge "A" "B" nan)
              0 1 chainA chainB eq_refl eq_refl eq_refl eq_refl eq_refl)
    as (H1 & H2 & _).
  split; assumption.
Defined.

(** ** The placeholder strategy against the engine *)

Lemma ltb_asym (x y : Amount) : (x <? y)%float = true -> (y <? x)%float = false.
Proof.
  rewrite !ltb_spec. unfold SFltb. rewrite !SFcompare_rank.
  destruct (rank (Prim2SF x)) as [a|], (rank (Prim2SF y)) as [b|]; try done.
  rewrite (lex3_antisym a b). now destruct (lex3 a b).
Qed.

(** X12.  With chain names that are all different, a bridge proposed by
    the placeholder strategy is the first action of its list and passes the
    solvency and destination-liquidity checks on the chains it was
    computed from; it is accepted whenever chain A's gas cost is at
    most 2. *)
Theorem placeholder_bridge_passes_balance_checks (chains : Chains) :
  NoDup (map chainName chains) ->
  In (mkAction bridge "A" "B" 2) (Strategy_onTickRecalc chains) ->
  exists s d src dst rest,
    Strategy_onTickRecalc chains = mkAction bridge "A" "B" 2 :: rest /\
    findChains chains 0 "A" "B" None None = (Some s, Some d) /\
    chains !! s = Some src /\ chains !! d = Some dst /\
    (balance src <? 2)%float = false /\
    (currentOutflowBal dst <? 2)%float = false /\
    ((gasCost (params src) <=? 2)%float = true ->
     firstFailingCheck chains (mkAction bridge "A" "B" 2) = None).
Proof.
  intros Hnd Hin. unfold Strategy_onTickRecalc in *.
  destruct (getChain chains "A") as [a|] eqn:Ha; [|done].
  destruct (getChain chains "B") as [b|] eqn:Hb; [|done].
  destruct (2 <? balance a)%float eqn:H1; cbn [andb] in *.
  2:{ cbn [app] in Hin. destruct (_ && _); cbn in Hin; [|done].
      destruct Hin as [[=]|[]]. }
  destruct (2 <? currentOutflowBal b)%float eqn:H2.
  2:{ cbn [app] in Hin. destruct (_ && _); cbn in Hin; [|done].
      destruct Hin as [[=]|[]]. }
  destruct (getChain_first _ _ _ Ha) as (i & Hi & Hna & _).
  destruct (getChain_first _ _ _ Hb) as (j & Hj & Hnb & _).
  destruct (proj2 (findChains_resolves_iff chains "A" "B" ltac:(done)))
    as (s & d & Hf).
  { rewrite <- Hna at 1. rewrite <- Hnb. eauto using lookup_name_In. }
  destruct (findChains_resolved _ _ _ _ _ Hf)
    as (_ & (c & Hc & Hcn) & (c' & Hc' & Hcn')).
  assert (s = i) by (eapply unique_name_index; eauto; congruence).
  assert (d = j) by (eapply unique_name_index; eauto; congruence).
  subst s d. assert (c = a) by congruence. assert (c' = b) by congruence.
  subst c c'.
  exists i, j, a, b. eexists. split; [reflexivity|].
  split; [done|]. split; [done|]. split; [done|].
  split; [now apply ltb_asym|]. split; [now apply ltb_asym|].
  intros Hgas. unfold firstFailingCheck. cbn [source destination amount type].
  change (String.eqb "A" "B") with false. cbv iota.
  rewrite Hf, Hi, Hj. cbn [destinationPool].
  now rewrite (ltb_asym _ _ H1), (ltb_asym _ _ H2), (leb_ltb_false _ _ Hgas).
Qed.

Lemma placeholder_bridge_passes_balance_checks_witness :
  exists s d src dst rest,
    Strategy_onTickRecalc initRoutes = mkAction bridge "A" "B" 2 :: rest /\
    findChains initRoutes 0 "A" "B" None None = (Some s, Some d) /\
    initRoutes !! s = Some src /\ initRoutes !! d = Some dst /\
    (balance src <? 2)%float = false /\
    (currentOutflowBal dst <? 2)%float = false /\
    ((gasCost (params src) <=? 2)%float = true ->
     firstFailingCheck initRoutes (mkAction bridge "A" "B" 2) = None).
Proof.
  apply (placeholder_bridge_passes_balance_checks initRoutes).
  - cbn. rewrite !NoDup_cons, !not_elem_of_cons.
    repeat split; try done; try apply not_elem_of_nil. apply NoDup_nil_2.
  - cbn. left. reflexivity.
Defined.

Lemma unknown_chain_rejected_witness :
  execAction 0 initRoutes (mkAction bridge "A" "Z" 1)
    = (initRoutes, [FailedToFindChain 0]).
Proof.
  apply (unknown_chain_rejected 0 initRoutes (mkAction bridge "A" "Z" 1)).
  - discriminate.
  - cbn. intros [_ [H|[H|[H|[]]]]]; discriminate.
Defined.

(** ** The report *)

Lemma lockedTotal_amounts (pending : LockedAmounts) :
  lockedTotal pending
    = fold_left (fun acc a => (acc + a)%float) (map fst pending) 0%float.
Proof.
  unfold lockedTotal. generalize 0%float.
  induction pending as [|e l IH]; intros acc; [done|]. cbn. apply IH.
Qed.

Lemma reportChains_view (chains chains' : Chains) (total : Amount) :
  map reportView chains = map reportView chains' ->
  reportChains chains total = reportChains chains' total.
Proof.
  revert chains' total.
  induction chains as [|c chains IH]; intros [|c' chains'] total Hv;
    try done.
  cbn [map] in Hv. unfold reportView at 1 3 in Hv.
  injection Hv as Hn Hb Hl Hr.
  cbn [reportChains]. rewrite !lockedTotal_amounts, Hn, Hb, Hl.
  now rewrite (IH chains' _ Hr).
Qed.

Lemma reportChains_length (chains : Chains) (total : Amount) :
  length (reportChains chains total).2 = length chains.
Proof.
  revert total. induction chains as [|c chains IH]; intros total; [done|].
  cbn [reportChains]. specialize (IH ((total + balance c) + lockedTotal (lockedBalances c))%float).
  destruct (reportChains chains _). cbn in *. lia.
Qed.

(** X13.  [reportState] prints one line per chain and one total, and
    reads nothing but each chain's name, its [balance] and the amounts of
    its pending entries: two vectors of chains that agree on these give
    the same report, whatever their pools, maxima, parameters and
    countdowns. *)
Theorem report_reads_names_balances_and_pending_amounts (chains chains' : Chains) :
  map reportView chains = map reportView chains' ->
  reportState chains = reportState chains' /\
  length (reportState chains) = S (length chains).
Proof.
  intros Hv. unfold reportState. rewrite (reportChains_view _ _ _ Hv). split; [done|].
  pose proof (reportChains_length chains' 0%float) as Hl.
  destruct (reportChains chains' 0) as [total out]. cbn in Hl.
  rewrite length_app. cbn.
  apply (f_equal (@length _)) in Hv. rewrite !length_map in Hv. lia.
Qed.

Lemma report_reads_names_balances_and_pending_amounts_witness :
  reportState (map regenerate initRoutes) = reportState initRoutes /\
  length (reportState (map regenerate initRoutes)) = 4.
Proof.
  apply (report_reads_names_balances_and_pending_amounts
           (map regenerate initRoutes) initRoutes).
  reflexivity.
Defined.

